(** * Grid shortest-path finder: [dijkstra] of python_example_364702.py

    A shallow embedding of the function [dijkstra(graph, start, end)] and the
    verification of its contract: the returned path is a shortest
    4-directional walk over traversable cells, the search terminates without
    raising on rectangular grids, and the result does not depend on how the
    priority queue lays out its entries. *)

From stdpp Require Import gmap list fin_maps sorting.
From Stdlib Require Import ZArith Lia.

Local Open Scope Z_scope.

(** ** Data model *)

(** A cell is the Python tuple [(row, col)] of two ints. *)
Definition cell : Type := Z * Z.

(** A heap entry is the tuple [(distance, (row, col))]. *)
Definition item : Type := Z * cell.

(** [distances] holds [float('inf')] or an int. *)
Inductive dist : Type :=
| Inf
| Fin (d : Z).

#[global] Instance dist_eq_dec : EqDecision dist.
Proof. solve_decision. Defined.

(** The exceptions the function can raise. *)
Inductive error : Type :=
| IndexError
| KeyError.

Inductive result (A : Type) : Type :=
| Ok (a : A)
| Err (e : error).
Arguments Ok {A} a.
Arguments Err {A} e.

(** Exceptions propagate: the rest of a computation is skipped. *)
#[global] Instance result_bind : MBind result := fun A B f m =>
  match m with
  | Ok a => f a
  | Err e => Err e
  end.

(** What one call of [dijkstra] produces: a returned value ([None] or a list
    of cells), a raised exception, or, for the fuel-bounded loops of the
    model, exhaustion of the fuel. *)
Inductive outcome : Type :=
| Returned (path : option (list cell))
| Raised (e : error)
| OutOfFuel.

(** Python list indexing [l[i]]: negative indices count from the end, and an
    index outside [-len, len) raises IndexError. *)
Definition py_index {A : Type} (l : list A) (i : Z) : result A :=
  let n := Z.of_nat (length l) in
  let j := if i <? 0 then i + n else i in
  if (0 <=? j) && (j <? n) then
    match l !! Z.to_nat j with
    | Some x => Ok x
    | None => Err IndexError
    end
  else Err IndexError.

(** Dictionary subscription [d[k]]: KeyError when the key is absent. *)
Definition dict_get {V : Type} (d : gmap cell V) (k : cell) : result V :=
  match d !! k with
  | Some v => Ok v
  | None => Err KeyError
  end.

(** [range(n)] *)
Definition range (n : Z) : list Z := Z.of_nat <$> seq 0 (Z.to_nat n).

(** Comparisons of an int with a [distances] entry. *)
Definition int_gt_dist (x : Z) (d : dist) : bool :=
  match d with
  | Inf => false
  | Fin y => y <? x
  end.

Definition int_lt_dist (x : Z) (d : dist) : bool :=
  match d with
  | Inf => true
  | Fin y => x <? y
  end.

(** Python's ordering of tuples is lexicographic. *)
Definition cell_lt (a b : cell) : bool :=
  (a.1 <? b.1) || ((a.1 =? b.1) && (a.2 <? b.2)).

Definition item_lt (x y : item) : bool :=
  (x.1 <? y.1) || ((x.1 =? y.1) && cell_lt x.2 y.2).

Definition item_le (x y : item) : Prop := item_lt y x = false.

(** ** The priority queue

    [heapq] is not part of the repository.  The queue is the Python list the
    code passes around; [heappush] and [heappop] are taken through their
    documented contract: on a list satisfying the heap invariant, [heappush]
    adds the entry, [heappop] removes and returns a smallest entry, and both
    keep the invariant.  [heappop] on an empty list raises IndexError
    ([None] here). *)
Class Heapq : Type := {
  heappush : list item -> item -> list item;
  heappop : list item -> option (item * list item);
  is_heap : list item -> Prop;
  is_heap_singleton : forall x, is_heap [x];
  heappush_heap : forall h x, is_heap h -> is_heap (heappush h x);
  heappush_perm : forall h x, is_heap h -> heappush h x ≡ₚ x :: h;
  heappop_spec : forall h, is_heap h -> h <> [] ->
    exists x h', heappop h = Some (x, h') /\ is_heap h' /\
                 h ≡ₚ x :: h' /\ Forall (item_le x) h'
}.

(** ** The search state: the three local variables the loop mutates. *)
Record state : Type := State {
  distances : gmap cell dist;
  previous_nodes : gmap cell cell;
  priority_queue : list item
}.

(** What one iteration of the [while] loop does. *)
Inductive step_result : Type :=
| Continue (st : state)
| Return (path : option (list cell))
| Raise (e : error)
| Diverge.

Section Dijkstra.
Context {HQ : Heapq}.

(** [{(r, c): float('inf') for r in range(rows) for c in range(cols)}]:
    the keys in the order the comprehension produces them, each stored
    with the value [float('inf')]. *)
Definition grid_cells (rows cols : Z) : list cell :=
  r ← range rows; c ← range cols; [(r, c)].

Definition init_distances (rows cols : Z) : gmap cell dist :=
  foldl (fun m c => <[c := Inf]> m) ∅ (grid_cells rows cols).

(** The body of the [for] loop over the neighbors (lines 74-89). *)
Definition relax (graph : list (list Z)) (rows cols : Z)
    (current_distance : Z) (current_node : cell)
    (st : state) (neighbor : cell) : result state :=
  let '(neighbor_row, neighbor_col) := neighbor in
  if (0 <=? neighbor_row) && (neighbor_row <? rows) &&
     ((0 <=? neighbor_col) && (neighbor_col <? cols)) then
    let neighbor_node := (neighbor_row, neighbor_col) in
    graph_row ← py_index graph neighbor_row;
    v ← py_index graph_row neighbor_col;
    if v =? 0 then
      let new_distance := current_distance + 1 in
      dn ← dict_get (distances st) neighbor_node;
      if int_lt_dist new_distance dn then
        Ok (State (<[neighbor_node := Fin new_distance]> (distances st))
                  (<[neighbor_node := current_node]> (previous_nodes st))
                  (heappush (priority_queue st) (new_distance, neighbor_node)))
      else Ok st
    else Ok st
  else Ok st.

(** [for neighbor_row, neighbor_col in neighbors: ...] *)
Fixpoint relax_all (graph : list (list Z)) (rows cols : Z)
    (current_distance : Z) (current_node : cell)
    (st : state) (neighbors : list cell) : result state :=
  match neighbors with
  | [] => Ok st
  | n :: ns =>
      st' ← relax graph rows cols current_distance current_node st n;
      relax_all graph rows cols current_distance current_node st' ns
  end.

(** The moves up, down, left, right, in the order of line 72. *)
Definition neighbors_of (current_node : cell) : list cell :=
  let '(row, col) := current_node in
  [(row - 1, col); (row + 1, col); (row, col - 1); (row, col + 1)].

(** The inner [while current_node in previous_nodes] loop (lines 63-65);
    [None] when the fuel runs out. *)
Fixpoint follow (fuel : nat) (previous_nodes : gmap cell cell)
    (current_node : cell) (path : list cell) : option (list cell) :=
  match previous_nodes !! current_node with
  | None => Some path
  | Some p =>
      match fuel with
      | O => None
      | S fuel' => follow fuel' previous_nodes p (path ++ [current_node])
      end
  end.

(** Lines 62-67. *)
Definition reconstruct (fuel : nat) (previous_nodes : gmap cell cell)
    (start current_node : cell) : step_result :=
  match follow fuel previous_nodes current_node [] with
  | None => Diverge
  | Some path => Return (Some (rev (path ++ [start])))
  end.

(** One iteration of the main loop (lines 54-89), entered with a non-empty
    queue. *)
Definition step (fuel : nat) (graph : list (list Z)) (rows cols : Z)
    (start end_ : cell) (st : state) : step_result :=
  match heappop (priority_queue st) with
  | None => Raise IndexError
  | Some ((current_distance, current_node), queue') =>
      match dict_get (distances st) current_node with
      | Err e => Raise e
      | Ok dc =>
          if int_gt_dist current_distance dc then
            Continue (State (distances st) (previous_nodes st) queue')
          else if decide (current_node = end_) then
            reconstruct fuel (previous_nodes st) start current_node
          else
            match relax_all graph rows cols current_distance current_node
                    (State (distances st) (previous_nodes st) queue')
                    (neighbors_of current_node) with
            | Ok st' => Continue st'
            | Err e => Raise e
            end
      end
  end.

(** [while priority_queue: ...] followed by [return None]. *)
Fixpoint loop (fuel : nat) (rfuel : nat) (graph : list (list Z))
    (rows cols : Z) (start end_ : cell) (st : state) : outcome :=
  match priority_queue st with
  | [] => Returned None
  | _ :: _ =>
      match fuel with
      | O => OutOfFuel
      | S fuel' =>
          match step rfuel graph rows cols start end_ st with
          | Continue st' => loop fuel' rfuel graph rows cols start end_ st'
          | Return r => Returned r
          | Raise e => Raised e
          | Diverge => OutOfFuel
          end
      end
  end.

(** The state on entry to the loop (lines 41-50). *)
Definition init_state (rows cols : Z) (start : cell) : state :=
  State (<[start := Fin 0]> (init_distances rows cols)) ∅ [(0, start)].

(** [dijkstra(graph, start, end)]; [fuel] bounds the iterations of each of
    the two [while] loops. *)
Definition dijkstra (fuel : nat) (graph : list (list Z)) (start end_ : cell)
    : outcome :=
  match py_index graph 0 with
  | Err e => Raised e
  | Ok row0 =>
      let rows := Z.of_nat (length graph) in
      let cols := Z.of_nat (length row0) in
      loop fuel fuel graph rows cols start end_ (init_state rows cols start)
  end.
End Dijkstra.

(** ** The grid as a graph *)

(** [len(graph)] and [len(graph[0])]. *)
Definition rows_of (graph : list (list Z)) : Z := Z.of_nat (length graph).
Definition cols_of (graph : list (list Z)) : Z :=
  Z.of_nat (length (default [] (head graph))).

Definition in_bounds (graph : list (list Z)) (c : cell) : Prop :=
  (0 <= c.1 < rows_of graph) /\ (0 <= c.2 < cols_of graph).

(** The value stored at a cell of the grid, when there is one. *)
Definition cell_value (graph : list (list Z)) (c : cell) : option Z :=
  match graph !! Z.to_nat c.1 with
  | Some graph_row => graph_row !! Z.to_nat c.2
  | None => None
  end.

(** A cell is traversable when it holds 0, blocked when it holds anything
    else. *)
Definition traversable (graph : list (list Z)) (c : cell) : Prop :=
  in_bounds graph c /\ cell_value graph c = Some 0.

Definition blocked (graph : list (list Z)) (c : cell) : Prop :=
  in_bounds graph c /\ exists v, cell_value graph c = Some v /\ v <> 0.

(** All rows are as long as the first. *)
Definition rectangular (graph : list (list Z)) : Prop :=
  Forall (fun graph_row => length graph_row = length (default [] (head graph)))
         graph.

Definition well_formed (graph : list (list Z)) : Prop :=
  graph <> [] /\ rectangular graph.

(** 4-directional adjacency. *)
Definition adjacent (a b : cell) : Prop := b ∈ neighbors_of a.

Fixpoint linked (q : list cell) : Prop :=
  match q with
  | a :: q' =>
      match q' with
      | b :: _ => adjacent a b /\ linked q'
      | [] => True
      end
  | [] => True
  end.

(** A path from [a] to [b]: consecutive cells adjacent, every cell
    traversable. *)
Definition is_path (graph : list (list Z)) (a b : cell) (q : list cell) : Prop :=
  head q = Some a /\ last q = Some b /\ linked q /\
  Forall (traversable graph) q.

(** The same without a condition on the first cell: the search never looks
    at the grid value of the cell it starts from. *)
Definition is_walk (graph : list (list Z)) (a b : cell) (q : list cell) : Prop :=
  head q = Some a /\ last q = Some b /\ linked q /\
  Forall (traversable graph) (tail q).

(** Number of moves of a path. *)
Definition hops (q : list cell) : Z := Z.of_nat (length q) - 1.

(** Walks built move by move from the start. *)
Inductive walk (graph : list (list Z)) (s : cell) : cell -> list cell -> Prop :=
| walk_start : walk graph s s [s]
| walk_move c v q :
    walk graph s c q -> adjacent c v -> traversable graph v ->
    walk graph s v (q ++ [v]).

(** Comparison of two [distances] entries, [float('inf')] on top. *)
Definition dist_le (a b : dist) : Prop :=
  match a, b with
  | _, Inf => True
  | Inf, Fin _ => False
  | Fin x, Fin y => x <= y
  end.

(** How many of the cells of [l] still have the entry [float('inf')]. *)
Fixpoint count_inf (d : gmap cell dist) (l : list cell) : nat :=
  match l with
  | [] => 0
  | c :: l' => (if decide (d !! c = Some Inf) then 1 else 0) + count_inf d l'
  end.

(** Pointwise: no entry of [d'] is above the entry of [d]. *)
Definition dists_le (d' d : gmap cell dist) : Prop :=
  forall c x, d !! c = Some x -> exists x', d' !! c = Some x' /\ dist_le x' x.

(** ** Vocabulary of the specification *)

(** The states the [while] loop passes through at its head. *)
Inductive loop_state `{HQ : Heapq} (graph : list (list Z)) (start end_ : cell)
  : state -> Prop :=
| loop_enter :
    loop_state graph start end_
      (init_state (rows_of graph) (cols_of graph) start)
| loop_iterate st st' rf :
    loop_state graph start end_ st ->
    priority_queue st <> [] ->
    step rf graph (rows_of graph) (cols_of graph) start end_ st = Continue st' ->
    loop_state graph start end_ st'.

(** A grid without obstacles: every stored value is 0. *)
Definition open_grid (graph : list (list Z)) : Prop :=
  Forall (Forall (fun v => v = 0)) graph.

Definition manhattan (a b : cell) : Z :=
  Z.abs (a.1 - b.1) + Z.abs (a.2 - b.2).

(** [graph] with the value [v] stored at cell [c]. *)
Definition set_cell (graph : list (list Z)) (c : cell) (v : Z) : list (list Z) :=
  alter (fun graph_row => <[Z.to_nat c.2 := v]> graph_row) (Z.to_nat c.1) graph.

(** [graph'] is [graph] with exactly one traversable cell turned into a
    blocked one. *)
Definition adds_obstacle (graph graph' : list (list Z)) : Prop :=
  exists b v, traversable graph b /\ v <> 0 /\ graph' = set_cell graph b v.

(** The inputs the specification calls well formed. *)
Definition valid_input (graph : list (list Z)) (start end_ : cell) : Prop :=
  well_formed graph /\ traversable graph start /\ traversable graph end_.

(** The call raises, whatever fuel it is given beyond some bound. *)
Definition rejects `{HQ : Heapq} (graph : list (list Z)) (start end_ : cell)
  : Prop :=
  exists n e, forall fuel, (n <= fuel)%nat ->
    dijkstra fuel graph start end_ = Raised e.

(** ** A priority queue meeting the contract: the sorted list

    A list sorted by the tuple ordering satisfies the heap invariant
    [heap[k] <= heap[2*k+1]], [heap[k] <= heap[2*k+2]]; pushing inserts in
    order, popping takes the head. *)
Module SortedHeap.
Fixpoint push (h : list item) (x : item) : list item :=
  match h with
  | [] => [x]
  | y :: h' => if item_lt x y then x :: y :: h' else y :: push h' x
  end.

Definition pop (h : list item) : option (item * list item) :=
  match h with
  | [] => None
  | x :: h' => Some (x, h')
  end.
End SortedHeap.

(** ** Another one: the unsorted list

    Pushing appends at the end, popping scans for the least entry; every
    list is a valid queue. *)
Module ScanHeap.
Definition push (h : list item) (x : item) : list item := h ++ [x].

(** The least entry of [x :: h] and the other entries. *)
Fixpoint pop_min (x : item) (h : list item) : item * list item :=
  match h with
  | [] => (x, [])
  | y :: h' =>
      if item_lt y x
      then let '(m, r) := pop_min y h' in (m, x :: r)
      else let '(m, r) := pop_min x h' in (m, y :: r)
  end.

Definition pop (h : list item) : option (item * list item) :=
  match h with
  | [] => None
  | x :: h' => Some (pop_min x h')
  end.
End ScanHeap.

(** ** Grids used to instantiate the theorems *)

(** The map of the script (lines 12-20). *)
Definition GAME_MAP : list (list Z) := [
    [0; 0; 0; 0; 1; 0; 0; 0];
    [0; 1; 0; 0; 1; 0; 1; 0];
    [0; 1; 0; 0; 0; 0; 0; 0];
    [0; 0; 0; 1; 1; 0; 1; 0];
    [0; 1; 0; 0; 0; 0; 0; 0];
    [0; 0; 0; 1; 0; 1; 0; 0];
    [0; 0; 0; 0; 0; 0; 0; 0]].

(** A small grid used to instantiate the theorems: row 1 is blocked except
    for a gap at column 2. *)
Definition gap_grid : list (list Z) := [[0; 0; 0]; [1; 1; 0]; [0; 0; 0]].

(** A grid whose goal is cut off: column 1 is blocked. *)
Definition wall_grid : list (list Z) := [[0; 1; 0]; [0; 1; 0]].

(** A 3 by 3 grid without obstacles. *)
Definition open3_grid : list (list Z) := [[0; 0; 0]; [0; 0; 0]; [0; 0; 0]].

(** [gap_grid] with the cell (1, 1) open. *)
Definition door_grid : list (list Z) := [[0; 0; 0]; [1; 0; 0]; [0; 0; 0]].

(** A grid whose second row is short, and a corridor. *)
Definition ragged_grid : list (list Z) := [[0; 0]; [0]].
Definition corridor_grid : list (list Z) := [[1; 0; 0]].

(** Bounds and cell values of a concrete grid, by evaluation. *)
Ltac concrete_bounds := split; unfold rows_of, cols_of; simpl; lia.
Ltac concrete_traversable := split; [concrete_bounds | reflexivity].

(** ** The tuple ordering and the sorted-list queue *)

Lemma item_lt_spec (x y : item) :
  item_lt x y = true <->
  x.1 < y.1 \/ (x.1 = y.1 /\ (x.2.1 < y.2.1 \/ (x.2.1 = y.2.1 /\ x.2.2 < y.2.2))).
Proof.
  unfold item_lt, cell_lt.
  rewrite !orb_true_iff, !andb_true_iff, !orb_true_iff, !andb_true_iff.
  rewrite !Z.ltb_lt, !Z.eqb_eq. tauto.
Qed.

Lemma item_le_spec (x y : item) :
  item_le x y <->
  x.1 < y.1 \/ (x.1 = y.1 /\ (x.2.1 < y.2.1 \/ (x.2.1 = y.2.1 /\ x.2.2 <= y.2.2))).
Proof.
  unfold item_le. rewrite <- not_true_iff_false, item_lt_spec. lia.
Qed.

Lemma item_le_fst (x y : item) : item_le x y -> x.1 <= y.1.
Proof. rewrite item_le_spec. lia. Qed.

Lemma item_le_trans (x y z : item) : item_le x y -> item_le y z -> item_le x z.
Proof. rewrite !item_le_spec. lia. Qed.

Lemma item_le_antisym (x y : item) : item_le x y -> item_le y x -> x = y.
Proof.
  rewrite !item_le_spec. destruct x as [d [r c]], y as [d' [r' c']]; simpl.
  intros ? ?. repeat f_equal; lia.
Qed.

Lemma item_lt_le (x y : item) : item_lt x y = true -> item_le x y.
Proof. rewrite item_lt_spec, item_le_spec. lia. Qed.

Lemma sorted_push_perm (h : list item) (x : item) : SortedHeap.push h x ≡ₚ x :: h.
Proof.
  induction h as [|y h IH]; simpl; [done|].
  destruct (item_lt x y); [done|].
  rewrite IH. apply Permutation_swap.
Qed.

Lemma sorted_push_sorted (h : list item) (x : item) :
  StronglySorted item_le h -> StronglySorted item_le (SortedHeap.push h x).
Proof.
  induction 1 as [|y h Hs IH Hy]; simpl.
  - repeat constructor.
  - destruct (item_lt x y) eqn:Hlt.
    + constructor; [by constructor|].
      constructor; [by apply item_lt_le|].
      eapply Forall_impl; [exact Hy|].
      intros z Hz. eapply item_le_trans; [by apply item_lt_le|done].
    + constructor; [done|].
      rewrite sorted_push_perm. by constructor.
Qed.

#[global] Program Instance sorted_heapq : Heapq := {|
  heappush := SortedHeap.push;
  heappop := SortedHeap.pop;
  is_heap := StronglySorted item_le
|}.
Next Obligation. intros x. repeat constructor. Qed.
Next Obligation. intros h x. apply sorted_push_sorted. Qed.
Next Obligation. intros h x _. apply sorted_push_perm. Qed.
Next Obligation.
  intros [|x h] Hs Hne; [done|].
  exists x, h. inversion Hs; subst. done.
Qed.

Lemma scan_pop_min (h : list item) (x m : item) (r : list item) :
  ScanHeap.pop_min x h = (m, r) ->
  x :: h ≡ₚ m :: r /\ Forall (item_le m) r /\ item_le m x.
Proof.
  revert x m r. induction h as [|y h IH]; intros x m r; simpl.
  - intros [= <- <-]. split_and!; [done|constructor|].
    apply item_le_spec. lia.
  - destruct (item_lt y x) eqn:Hlt.
    + destruct (ScanHeap.pop_min y h) as [m' r'] eqn:Hmin. intros [= <- <-].
      destruct (IH _ _ _ Hmin) as (Hperm & Hall & Hle).
      assert (Hmx : item_le m' x).
      { eapply item_le_trans; [done|]. by apply item_lt_le. }
      split_and!; [|by constructor|done].
      rewrite Hperm. apply Permutation_swap.
    + destruct (ScanHeap.pop_min x h) as [m' r'] eqn:Hmin. intros [= <- <-].
      destruct (IH _ _ _ Hmin) as (Hperm & Hall & Hle).
      split_and!; [| |done].
      * etrans; [apply Permutation_swap|]. rewrite Hperm. apply Permutation_swap.
      * constructor; [|done]. by eapply item_le_trans.
Qed.

#[global] Program Instance scan_heapq : Heapq | 10 := {|
  heappush := ScanHeap.push;
  heappop := ScanHeap.pop;
  is_heap := fun _ => True
|}.
Next Obligation. done. Qed.
Next Obligation. done. Qed.
Next Obligation. intros h x _. unfold ScanHeap.push. by rewrite Permutation_app_comm. Qed.
Next Obligation.
  intros [|x h] _ Hne; [done|]. simpl.
  destruct (ScanHeap.pop_min x h) as [m r] eqn:Hmin.
  destruct (scan_pop_min _ _ _ _ Hmin) as (Hperm & Hall & _).
  by exists m, r.
Qed.

(** ** Basic facts *)

Lemma adjacent_spec (a b : cell) :
  adjacent a b <->
  (b.1 = a.1 - 1 /\ b.2 = a.2) \/ (b.1 = a.1 + 1 /\ b.2 = a.2) \/
  (b.1 = a.1 /\ b.2 = a.2 - 1) \/ (b.1 = a.1 /\ b.2 = a.2 + 1).
Proof.
  unfold adjacent, neighbors_of. destruct a as [r c], b as [r' c']; simpl.
  rewrite !elem_of_cons, elem_of_nil.
  split.
  - intros [E|[E|[E|[E|[]]]]]; inversion E; lia.
  - intros [[-> ->]|[[-> ->]|[[-> ->]|[-> ->]]]]; auto.
Qed.

Lemma adjacent_sym (a b : cell) : adjacent a b -> adjacent b a.
Proof. rewrite !adjacent_spec. lia. Qed.

Lemma py_index_ok {A : Type} (l : list A) (i : Z) (x : A) :
  0 <= i -> l !! Z.to_nat i = Some x -> py_index l i = Ok x.
Proof.
  intros Hi Hl. unfold py_index.
  apply lookup_lt_Some in Hl as Hlt.
  replace (i <? 0) with false by lia.
  replace ((0 <=? i) && (i <? Z.of_nat (length l))) with true by lia.
  by rewrite Hl.
Qed.

Lemma py_index_nil {A : Type} (i : Z) : py_index (@nil A) i = Err IndexError.
Proof.
  unfold py_index. rewrite lookup_nil. by destruct (_ && _).
Qed.

Lemma elem_of_range (n i : Z) : i ∈ range n <-> 0 <= i < n.
Proof.
  unfold range. rewrite list_elem_of_fmap. split.
  - intros (k & -> & Hk). apply elem_of_seq in Hk. lia.
  - intros Hi. exists (Z.to_nat i). split; [lia|]. apply elem_of_seq. lia.
Qed.

Lemma elem_of_grid_cells (rows cols : Z) (c : cell) :
  c ∈ grid_cells rows cols <-> (0 <= c.1 < rows) /\ (0 <= c.2 < cols).
Proof.
  unfold grid_cells. rewrite list_elem_of_bind. split.
  - intros (r & Hc & Hr). apply list_elem_of_bind in Hc as (k & Hc & Hk).
    apply list_elem_of_singleton in Hc as ->. simpl.
    apply elem_of_range in Hr, Hk. done.
  - intros [Hr Hc]. exists c.1. split; [|by apply elem_of_range].
    apply list_elem_of_bind. exists c.2. split; [|by apply elem_of_range].
    destruct c; simpl. apply list_elem_of_singleton. done.
Qed.

Lemma lookup_foldl_inf (l : list cell) (m : gmap cell dist) (k : cell) :
  foldl (fun m c => <[c := Inf]> m) m l !! k =
  if decide (k ∈ l) then Some Inf else m !! k.
Proof.
  revert m. induction l as [|c l IH]; intros m; cbn [foldl].
  - rewrite decide_False; [done|]. apply not_elem_of_nil.
  - rewrite IH. destruct (decide (k ∈ l)) as [Hin|Hnin].
    + rewrite decide_True; [done|]. by right.
    + destruct (decide (k = c)) as [->|Hne].
      * rewrite decide_True by left. apply lookup_insert_eq.
      * rewrite decide_False; [by apply lookup_insert_ne|].
        rewrite elem_of_cons. tauto.
Qed.

Lemma init_distances_lookup (rows cols : Z) (c : cell) :
  init_distances rows cols !! c =
  if decide (c ∈ grid_cells rows cols) then Some Inf else None.
Proof. unfold init_distances. rewrite lookup_foldl_inf. by rewrite lookup_empty. Qed.

Lemma count_inf_insert_le (d : gmap cell dist) (l : list cell) (v : cell) (x : Z) :
  (count_inf (<[v := Fin x]> d) l <= count_inf d l)%nat.
Proof.
  induction l as [|c l IH]; simpl; [done|].
  destruct (decide (c = v)) as [->|Hne].
  - rewrite lookup_insert_eq. rewrite (decide_False (P := Some (Fin x) = Some Inf)) by done.
    destruct (decide _); lia.
  - rewrite lookup_insert_ne by done. destruct (decide _); lia.
Qed.

Lemma count_inf_insert_lt (d : gmap cell dist) (l : list cell) (v : cell) (x : Z) :
  v ∈ l -> d !! v = Some Inf ->
  (count_inf (<[v := Fin x]> d) l < count_inf d l)%nat.
Proof.
  intros Hin Hv. induction l as [|c l IH]; simpl.
  - by apply elem_of_nil in Hin.
  - pose proof (count_inf_insert_le d l v x) as Hle.
    destruct (decide (c = v)) as [->|Hne].
    + rewrite lookup_insert_eq, Hv.
      rewrite (decide_False (P := Some (Fin x) = Some Inf)) by done.
      rewrite decide_True by done. lia.
    + rewrite lookup_insert_ne by done.
      apply elem_of_cons in Hin as [->|Hin]; [done|].
      specialize (IH Hin). destruct (decide _); lia.
Qed.

(** *** Paths as lists and as sequences of moves *)

Lemma linked_snoc (q : list cell) (p c : cell) :
  linked q -> last q = Some p -> adjacent p c -> linked (q ++ [c]).
Proof.
  induction q as [|a q IH]; [done|].
  destruct q as [|b q].
  - simpl. intros _ [= ->] Hadj. done.
  - intros [Hab Hl] Hlast Hadj. split; [done|].
    apply IH; [done| |done]. by rewrite last_cons_cons in Hlast.
Qed.

Lemma linked_app_inv (q : list cell) (c : cell) :
  linked (q ++ [c]) -> linked q /\ (forall p, last q = Some p -> adjacent p c).
Proof.
  induction q as [|a q IH]; [done|].
  destruct q as [|b q].
  - simpl. intros [Hadj _]. split; [done|]. by intros p [= ->].
  - intros [Hab Hl]. destruct (IH Hl) as [Hq Hp]. split; [by split|].
    intros p Hlast. apply Hp. by rewrite last_cons_cons in Hlast.
Qed.

Lemma walk_is_walk (graph : list (list Z)) (s c : cell) (q : list cell) :
  walk graph s c q -> is_walk graph s c q.
Proof.
  induction 1 as [|c v q Hw (Hh & Hl & Hlk & Ht) Hadj Htr].
  - by repeat split.
  - destruct q as [|a q]; [done|]. repeat split.
    + done.
    + by rewrite last_snoc.
    + by eapply linked_snoc.
    + simpl in *. apply Forall_app. split; [done|]. by constructor.
Qed.

Lemma is_walk_walk (graph : list (list Z)) (s c : cell) (q : list cell) :
  is_walk graph s c q -> walk graph s c q.
Proof.
  revert c. induction q as [|v q IH] using rev_ind; intros c (Hh & Hl & Hlk & Ht).
  - done.
  - rewrite last_snoc in Hl. injection Hl as ->.
    destruct q as [|a q].
    + simpl in Hh. injection Hh as ->. constructor.
    + apply linked_app_inv in Hlk as [Hlk Hadj].
      simpl in Ht. apply Forall_app in Ht as [Ht Hc].
      destruct (last (a :: q)) as [p|] eqn:Hp.
      2:{ apply last_None in Hp. done. }
      apply walk_move with (c := p).
      * apply IH. by repeat split.
      * by apply Hadj.
      * by inversion Hc.
Qed.

Lemma is_path_is_walk (graph : list (list Z)) (a b : cell) (q : list cell) :
  is_path graph a b q -> is_walk graph a b q.
Proof.
  intros (Hh & Hl & Hlk & Ht). repeat split; try done.
  destruct q; [done|]. by inversion Ht.
Qed.

Lemma is_walk_is_path (graph : list (list Z)) (a b : cell) (q : list cell) :
  traversable graph a -> is_walk graph a b q -> is_path graph a b q.
Proof.
  intros Ha (Hh & Hl & Hlk & Ht). repeat split; try done.
  destruct q as [|x q]; [done|]. simpl in *. injection Hh as ->.
  by constructor.
Qed.

Lemma hops_snoc (q : list cell) (c : cell) : hops (q ++ [c]) = hops q + 1.
Proof. unfold hops. rewrite length_app. simpl. lia. Qed.

Lemma walk_hops_nonneg (graph : list (list Z)) (s c : cell) (q : list cell) :
  walk graph s c q -> 0 <= hops q.
Proof.
  induction 1; [done|]. rewrite hops_snoc. lia.
Qed.

(** ** The invariants of the search *)

Lemma elem_of_heappush `{HQ : Heapq} (h : list item) (x y : item) :
  is_heap h -> y ∈ heappush h x <-> y = x \/ y ∈ h.
Proof. intros Hh. rewrite (heappush_perm h x Hh). apply elem_of_cons. Qed.

Lemma length_heappush `{HQ : Heapq} (h : list item) (x : item) :
  is_heap h -> length (heappush h x) = S (length h).
Proof. intros Hh. by rewrite (heappush_perm h x Hh). Qed.

Lemma grid_read (graph : list (list Z)) (v : cell) :
  rectangular graph -> in_bounds graph v ->
  exists graph_row val,
    py_index graph v.1 = Ok graph_row /\ py_index graph_row v.2 = Ok val /\
    cell_value graph v = Some val.
Proof.
  intros Hrect [Hr Hc]. unfold rows_of, cols_of in *.
  destruct (lookup_lt_is_Some_2 graph (Z.to_nat v.1)) as [graph_row Hrow]; [lia|].
  assert (Hlen : length graph_row = length (default [] (head graph))).
  { unfold rectangular in Hrect. rewrite Forall_forall in Hrect.
    apply Hrect. eapply list_elem_of_lookup_2, Hrow. }
  destruct (lookup_lt_is_Some_2 graph_row (Z.to_nat v.2)) as [val Hval]; [lia|].
  exists graph_row, val. split; [|split].
  - apply py_index_ok; [lia|done].
  - apply py_index_ok; [lia|done].
  - unfold cell_value. by rewrite Hrow.
Qed.

Lemma dist_le_refl (x : dist) : dist_le x x.
Proof. destruct x; simpl; [done|lia]. Qed.

Lemma dist_le_trans (x y z : dist) : dist_le x y -> dist_le y z -> dist_le x z.
Proof. destruct x, y, z; simpl; try done; lia. Qed.

Lemma dists_le_refl (d : gmap cell dist) : dists_le d d.
Proof. intros c x Hc. exists x. split; [done|apply dist_le_refl]. Qed.

Lemma dists_le_trans (d1 d2 d3 : gmap cell dist) :
  dists_le d1 d2 -> dists_le d2 d3 -> dists_le d1 d3.
Proof.
  intros H12 H23 c x Hc. destruct (H23 c x Hc) as (y & Hy & Hyx).
  destruct (H12 c y Hy) as (z & Hz & Hzy). exists z. split; [done|].
  by eapply dist_le_trans.
Qed.

Lemma dists_le_fin (d' d : gmap cell dist) (c : cell) (x : Z) :
  dists_le d' d -> d !! c = Some (Fin x) ->
  exists x', d' !! c = Some (Fin x') /\ x' <= x.
Proof.
  intros Hle Hc. destruct (Hle c _ Hc) as ([|x'] & Hx' & Hd); [done|].
  by exists x'.
Qed.

Section Search.
Context {HQ : Heapq}.
Variable graph : list (list Z).
Variables start end_ : cell.
Hypothesis Hrect : rectangular graph.

(** Facts that hold at every point of the search. *)
Record core (st : state) : Prop := {
  core_heap : is_heap (priority_queue st);
  core_start : distances st !! start = Some (Fin 0);
  core_dom : forall c, in_bounds graph c -> is_Some (distances st !! c);
  core_nonneg : forall c d, distances st !! c = Some (Fin d) -> 0 <= d;
  core_queue : forall d c, (d, c) ∈ priority_queue st ->
    exists d', distances st !! c = Some (Fin d') /\ d' <= d;
  core_level : forall c dc d x,
    distances st !! c = Some (Fin dc) -> (d, x) ∈ priority_queue st ->
    dc <= d + 1;
  core_reach : forall c d, distances st !! c = Some (Fin d) ->
    exists q, walk graph start c q /\ hops q = d;
  core_prev : forall c p, previous_nodes st !! c = Some p ->
    adjacent p c /\ traversable graph c /\
    exists dp dc, distances st !! p = Some (Fin dp) /\
                  distances st !! c = Some (Fin dc) /\ dp < dc;
  core_root : forall c d, distances st !! c = Some (Fin d) ->
    previous_nodes st !! c = None -> c = start;
  core_goal : forall d, distances st !! end_ = Some (Fin d) ->
    (d, end_) ∈ priority_queue st
}.

(** A cell whose entry is no longer in the queue has been expanded: each
    traversable neighbor has an entry at most one above. *)
Definition settled_ok (st : state) (c : cell) : Prop :=
  forall dc v, distances st !! c = Some (Fin dc) ->
    (dc, c) ∉ priority_queue st ->
    adjacent c v -> traversable graph v ->
    exists dv, distances st !! v = Some (Fin dv) /\ dv <= dc + 1.

(** The invariant at the head of the [while] loop. *)
Definition inv (st : state) : Prop := core st /\ forall c, settled_ok st c.

(** The invariant inside the [for] loop expanding [u], popped with [d]. *)
Record mid (d : Z) (u : cell) (st : state) : Prop := {
  mid_core : core st;
  mid_settled : forall c, c <> u -> settled_ok st c;
  mid_lower : forall d2 x, (d2, x) ∈ priority_queue st -> d <= d2;
  mid_upper : forall c dc, distances st !! c = Some (Fin dc) -> dc <= d + 1;
  mid_cur : distances st !! u = Some (Fin d)
}.

(** The variant of the [while] loop. *)
Definition measure (st : state) : nat :=
  length (priority_queue st) +
  2 * count_inf (distances st) (grid_cells (rows_of graph) (cols_of graph)).

(** The iteration from [st] goes on with [st']: the invariant holds again,
    the variant is smaller and no entry of [distances] is above its
    previous value. *)
Definition goes_on (st st' : state) : Prop :=
  (forall rf, step rf graph (rows_of graph) (cols_of graph) start end_ st
              = Continue st') /\
  inv st' /\ (measure st' < measure st)%nat /\
  dists_le (distances st') (distances st).

(** A walk from [start] to [end_] that no other such walk beats. *)
Definition shortest_walk (p : list cell) : Prop :=
  walk graph start end_ p /\
  forall q, walk graph start end_ q -> hops p <= hops q.

(** The iteration from [st] returns the shortest walk [p], once the inner
    loop is given [k] units of fuel; with less it runs out of fuel. *)
Definition finishes (st : state) (p : list cell) (k : nat) : Prop :=
  (forall rf, (k <= rf)%nat ->
     step rf graph (rows_of graph) (cols_of graph) start end_ st
     = Return (Some p)) /\
  (forall rf,
     step rf graph (rows_of graph) (cols_of graph) start end_ st
     = Return (Some p) \/
     step rf graph (rows_of graph) (cols_of graph) start end_ st = Diverge) /\
  shortest_walk p.

(** The assignment of lines 86-89 keeps the invariant of the [for] loop. *)
Lemma relax_update (d : Z) (u v : cell) (st : state) :
  mid d u st -> adjacent u v -> traversable graph v ->
  distances st !! v = Some Inf ->
  let st' := State (<[v := Fin (d + 1)]> (distances st))
                   (<[v := u]> (previous_nodes st))
                   (heappush (priority_queue st) (d + 1, v)) in
  mid d u st' /\ dists_le (distances st') (distances st) /\
  (measure st' <= measure st)%nat.
Proof.
  intros [Hc Hs Hlo Hup Hcur] Hadj Htr Hv st'.
  destruct Hc as [Hheap Hstart Hdom Hnn Hq Hlev Hreach Hprev Hroot Hgoal].
  assert (Hd0 : 0 <= d) by eauto.
  assert (Hvu : v <> u) by (intros ->; congruence).
  assert (Hvs : v <> start) by (intros ->; congruence).
  assert (Hmono : dists_le (distances st') (distances st)).
  { intros c x Hcx. simpl. destruct (decide (c = v)) as [->|Hne].
    - rewrite lookup_insert_eq. eexists; split; [done|].
      rewrite Hv in Hcx. by injection Hcx as <-.
    - rewrite lookup_insert_ne by done. exists x. split; [done|apply dist_le_refl]. }
  split; [|split; [done|]].
  - split; [split|..]; simpl.
    + by apply heappush_heap.
    + by rewrite lookup_insert_ne.
    + intros c Hc. destruct (decide (c = v)) as [->|Hne].
      * rewrite lookup_insert_eq. eauto.
      * rewrite lookup_insert_ne by done. eauto.
    + intros c x. destruct (decide (c = v)) as [->|Hne].
      * rewrite lookup_insert_eq. intros [= <-]. lia.
      * rewrite lookup_insert_ne by done. eauto.
    + intros x c Hin. apply (elem_of_heappush _ _ _ Hheap) in Hin as [[= -> ->]|Hin].
      * rewrite lookup_insert_eq. eexists; split; [done|lia].
      * destruct (decide (c = v)) as [->|Hne].
        -- destruct (Hq _ _ Hin) as (d' & Hd' & _). congruence.
        -- rewrite lookup_insert_ne by done. eauto.
    + intros c dc x y Hc Hin.
      assert (dc <= d + 1).
      { destruct (decide (c = v)) as [->|Hne].
        - rewrite lookup_insert_eq in Hc. injection Hc as <-. lia.
        - rewrite lookup_insert_ne in Hc by done. eauto. }
      apply (elem_of_heappush _ _ _ Hheap) in Hin as [[= -> ->]|Hin]; [lia|].
      apply Hlo in Hin. lia.
    + intros c x. destruct (decide (c = v)) as [->|Hne].
      * rewrite lookup_insert_eq. intros [= <-].
        destruct (Hreach _ _ Hcur) as (q & Hw & Hh).
        exists (q ++ [v]). split; [by eapply walk_move|].
        rewrite hops_snoc. lia.
      * rewrite lookup_insert_ne by done. eauto.
    + intros c p. destruct (decide (c = v)) as [->|Hne].
      * rewrite lookup_insert_eq. intros [= <-]. split; [done|]. split; [done|].
        exists d, (d + 1). rewrite lookup_insert_ne by done.
        rewrite lookup_insert_eq. split; [done|]. split; [done|lia].
      * rewrite lookup_insert_ne by done. intros Hp.
        destruct (Hprev _ _ Hp) as (Ha & Ht & dp & dc & Hdp & Hdc & Hlt).
        split; [done|]. split; [done|].
        assert (Hpv : p <> v) by (intros ->; congruence).
        exists dp, dc. by rewrite !lookup_insert_ne.
    + intros c x. destruct (decide (c = v)) as [->|Hne].
      * by rewrite (lookup_insert_eq (previous_nodes st)).
      * rewrite !lookup_insert_ne by done. eauto.
    + intros x. destruct (decide (end_ = v)) as [->|Hne].
      * rewrite lookup_insert_eq. intros [= <-].
        apply elem_of_heappush; [done|]. by left.
      * rewrite lookup_insert_ne by done. intros Hx.
        apply elem_of_heappush; [done|]. right. eauto.
    + unfold settled_ok, st'; simpl. intros c Hcu dc w Hc Hnin Hcw Hw.
      assert (Hcv : c <> v).
      { intros ->. rewrite lookup_insert_eq in Hc. injection Hc as <-.
        apply Hnin. apply elem_of_heappush; [done|]. by left. }
      rewrite lookup_insert_ne in Hc by done.
      destruct (Hs c Hcu dc w Hc) as (dw & Hdw & Hle); [|done|done|].
      { intros Hin. apply Hnin. apply elem_of_heappush; [done|]. by right. }
      destruct (dists_le_fin _ _ _ _ Hmono Hdw) as (dw' & Hdw' & Hle').
      exists dw'. split; [done|lia].
    + intros x y Hin. apply (elem_of_heappush _ _ _ Hheap) in Hin as [[= -> ->]|Hin]; [lia|].
      eauto.
    + intros c x. destruct (decide (c = v)) as [->|Hne].
      * rewrite lookup_insert_eq. intros [= <-]. lia.
      * rewrite lookup_insert_ne by done. eauto.
    + by rewrite lookup_insert_ne.
  - unfold measure. simpl. rewrite length_heappush by done.
    assert (Hin : v ∈ grid_cells (rows_of graph) (cols_of graph)).
    { apply elem_of_grid_cells. apply Htr. }
    pose proof (count_inf_insert_lt (distances st) _ v (d + 1) Hin Hv). lia.
Qed.
(** One pass of the body of the [for] loop. *)
Lemma relax_mid (d : Z) (u v : cell) (st : state) :
  mid d u st -> adjacent u v ->
  exists st',
    relax graph (rows_of graph) (cols_of graph) d u st v = Ok st' /\
    mid d u st' /\ dists_le (distances st') (distances st) /\
    (measure st' <= measure st)%nat /\
    (traversable graph v ->
     exists dv, distances st' !! v = Some (Fin dv) /\ dv <= d + 1).
Proof.
  intros Hmid Hadj. unfold relax. destruct v as [r c].
  destruct ((0 <=? r) && (r <? rows_of graph) &&
            ((0 <=? c) && (c <? cols_of graph))) eqn:Hb.
  2:{ exists st. split_and!; [done|done|apply dists_le_refl|done|].
      intros [[Hr Hc] _]. simpl in *. lia. }
  assert (Hin : in_bounds graph (r, c)) by (split; simpl; lia).
  destruct (grid_read graph (r, c) Hrect Hin) as (graph_row & val & Hrow & Hval & Hcv).
  simpl in Hrow, Hval. rewrite Hrow. simpl. rewrite Hval. simpl.
  destruct (val =? 0) eqn:Hz.
  2:{ exists st. split_and!; [done|done|apply dists_le_refl|done|].
      intros [_ Hv]. rewrite Hcv in Hv. injection Hv as ->. done. }
  apply Z.eqb_eq in Hz as ->.
  assert (Htr : traversable graph (r, c)) by done.
  destruct (core_dom st (mid_core _ _ _ Hmid) (r, c) Hin) as [dn Hdn].
  unfold dict_get. rewrite Hdn. simpl.
  destruct dn as [|y]; simpl.
  - destruct (relax_update d u (r, c) st Hmid Hadj Htr Hdn) as (Hm & Hle & Hms).
    eexists. split_and!; [done|done|done|done|].
    intros _. exists (d + 1). simpl. by rewrite lookup_insert_eq.
  - pose proof (mid_upper _ _ _ Hmid _ _ Hdn) as Hy.
    replace (d + 1 <? y) with false by lia.
    exists st. split_and!; [done|done|apply dists_le_refl|done|].
    intros _. by exists y.
Qed.

(** The whole [for] loop. *)
Lemma relax_all_mid (d : Z) (u : cell) (vs : list cell) (st : state) :
  mid d u st -> Forall (adjacent u) vs ->
  exists st',
    relax_all graph (rows_of graph) (cols_of graph) d u st vs = Ok st' /\
    mid d u st' /\ dists_le (distances st') (distances st) /\
    (measure st' <= measure st)%nat /\
    (forall v, v ∈ vs -> traversable graph v ->
     exists dv, distances st' !! v = Some (Fin dv) /\ dv <= d + 1).
Proof.
  revert st. induction vs as [|v vs IH]; intros st Hmid Hadj; simpl.
  - exists st. split_and!; [done|done|apply dists_le_refl|done|].
    intros v Hv. by apply elem_of_nil in Hv.
  - inversion Hadj as [|? ? Hv Hvs]; subst.
    destruct (relax_mid d u v st Hmid Hv) as (st1 & -> & Hm1 & Hle1 & Hms1 & Hd1).
    simpl.
    destruct (IH st1 Hm1 Hvs) as (st2 & -> & Hm2 & Hle2 & Hms2 & Hd2).
    exists st2. split; [done|]. split; [done|].
    split; [by eapply dists_le_trans|]. split; [lia|].
    intros w Hw Htr. apply elem_of_cons in Hw as [->|Hw]; [|by apply Hd2].
    destruct (Hd1 Htr) as (dv & Hdv & Hle).
    destruct (dists_le_fin _ _ _ _ Hle2 Hdv) as (dv' & Hdv' & Hle').
    exists dv'. split; [done|lia].
Qed.

Lemma neighbors_adjacent (u : cell) : Forall (adjacent u) (neighbors_of u).
Proof. apply Forall_forall. by intros v Hv. Qed.

(** Removing the popped entry from the queue. *)
Lemma core_pop (st : state) (x : item) (queue' : list item) :
  core st -> priority_queue st ≡ₚ x :: queue' -> is_heap queue' ->
  (forall dg, distances st !! end_ = Some (Fin dg) -> (dg, end_) <> x) ->
  core (State (distances st) (previous_nodes st) queue').
Proof.
  intros [Hheap Hstart Hdom Hnn Hq Hlev Hreach Hprev Hroot Hgoal] Hperm Hh Hx.
  assert (Hsub : forall y, y ∈ queue' -> y ∈ priority_queue st).
  { intros y Hy. rewrite Hperm. by right. }
  split; simpl; try done.
  - intros d c Hin. eauto.
  - intros c dc d y Hc Hin. eauto.
  - intros dg Hdg. pose proof (Hgoal _ Hdg) as Hin.
    rewrite Hperm in Hin. apply elem_of_cons in Hin as [Heq|Hin]; [|done].
    by apply Hx in Hdg.
Qed.

Lemma settled_pop (st : state) (x : item) (queue' : list item) (c : cell) :
  settled_ok st c -> priority_queue st ≡ₚ x :: queue' ->
  (forall dc, distances st !! c = Some (Fin dc) -> (dc, c) <> x) ->
  settled_ok (State (distances st) (previous_nodes st) queue') c.
Proof.
  intros Hs Hperm Hx dc v Hc Hnin Hadj Htr. simpl in *.
  apply (Hs dc v); try done.
  rewrite Hperm. intros Hin. apply elem_of_cons in Hin as [Heq|Hin]; [|done].
  by apply Hx in Hc.
Qed.

(** Every walk from the start either ends on a cell whose entry is at most
    its length, or meets the frontier no later than its end. *)
Lemma walk_bound (st : state) (c : cell) (q : list cell) :
  inv st -> walk graph start c q ->
  (exists dc, distances st !! c = Some (Fin dc) /\ dc <= hops q) \/
  (exists d x, (d, x) ∈ priority_queue st /\ d <= hops q).
Proof.
  intros [Hcore Hset]. induction 1 as [|c v q Hw IH Hadj Htr].
  - left. exists 0. split; [apply Hcore|done].
  - rewrite hops_snoc. destruct IH as [(dc & Hdc & Hle)|(d & x & Hin & Hle)].
    + destruct (decide ((dc, c) ∈ priority_queue st)) as [Hin|Hnin].
      * right. exists dc, c. split; [done|lia].
      * destruct (Hset c dc v Hdc Hnin Hadj Htr) as (dv & Hdv & Hle').
        left. exists dv. split; [done|lia].
    + right. exists d, x. split; [done|lia].
Qed.

(** The inner [while] loop stops at once on a cell without predecessor. *)
Lemma follow_stop (fuel : nat) (prev : gmap cell cell) (cur : cell)
    (acc : list cell) :
  prev !! cur = None -> follow fuel prev cur acc = Some acc.
Proof. intros Hp. destruct fuel; simpl; by rewrite Hp. Qed.

(** The inner [while] loop walks the predecessors back to the start: the
    entries of [distances] decrease along the chain, so [n] steps suffice
    from an entry at most [n]. *)
Lemma follow_spec (st : state) (n : nat) :
  core st ->
  forall cur dc, distances st !! cur = Some (Fin dc) -> dc <= Z.of_nat n ->
  exists chain,
    (forall fuel acc, (n <= fuel)%nat ->
       follow fuel (previous_nodes st) cur acc = Some (acc ++ chain)) /\
    (forall fuel acc,
       follow fuel (previous_nodes st) cur acc = None \/
       follow fuel (previous_nodes st) cur acc = Some (acc ++ chain)) /\
    walk graph start cur (rev (chain ++ [start])) /\
    hops (rev (chain ++ [start])) <= dc.
Proof.
  intros Hcore. induction n as [|n IH]; intros cur dc Hcur Hdc;
    pose proof (core_nonneg st Hcore _ _ Hcur) as Hdc0;
    destruct (previous_nodes st !! cur) as [p|] eqn:Hp.
  2, 4: pose proof (core_root st Hcore _ _ Hcur Hp) as ->;
        exists []; split_and!;
        [ intros fuel acc _; by rewrite follow_stop, app_nil_r
        | intros fuel acc; right; by rewrite follow_stop, app_nil_r
        | constructor
        | done ].
  - destruct (core_prev st Hcore _ _ Hp) as (_ & _ & dp & dc' & Hdp & Hdc' & Hlt).
    pose proof (core_nonneg st Hcore _ _ Hdp). rewrite Hcur in Hdc'.
    injection Hdc' as <-. lia.
  - destruct (core_prev st Hcore _ _ Hp) as (Hadj & Htr & dp & dc' & Hdp & Hdc' & Hlt).
    rewrite Hcur in Hdc'. injection Hdc' as <-.
    destruct (IH p dp Hdp) as (chain & Hf & Hf' & Hw & Hh); [lia|].
    exists (cur :: chain). split_and!.
    + intros fuel acc Hfuel. destruct fuel as [|fuel]; [lia|]. simpl.
      rewrite Hp, Hf by lia. by rewrite <- app_assoc.
    + intros fuel acc. destruct fuel as [|fuel]; simpl; rewrite Hp; [by left|].
      replace (acc ++ cur :: chain) with ((acc ++ [cur]) ++ chain)
        by (by rewrite <- app_assoc).
      apply Hf'.
    + simpl. by eapply walk_move.
    + simpl. rewrite hops_snoc. lia.
Qed.

(** One iteration of the [while] loop from a state satisfying the
    invariant. *)
Lemma step_spec (st : state) :
  inv st -> priority_queue st <> [] ->
  (exists st', goes_on st st') \/ (exists p k, finishes st p k).
Proof.
  intros [Hcore Hset] Hne.
  destruct (heappop_spec _ (core_heap _ Hcore) Hne)
    as ([d u] & queue' & Hpop & Hh & Hperm & Hmin).
  assert (Hin : (d, u) ∈ priority_queue st) by (rewrite Hperm; left).
  destruct (core_queue _ Hcore _ _ Hin) as (d' & Hd' & Hle).
  assert (Hlen : length (priority_queue st) = S (length queue')).
  { by rewrite Hperm. }
  unfold goes_on, finishes, step. rewrite Hpop. unfold dict_get. rewrite Hd'. simpl.
  destruct (d' <? d) eqn:Hstale.
  { (* a stale entry *)
    left. eexists. split; [done|]. split_and!.
    - split.
      + apply core_pop with (x := (d, u)); try done.
        intros dg Hdg [= -> ->]. rewrite Hd' in Hdg. injection Hdg as ->. lia.
      + intros c. apply settled_pop with (x := (d, u)); try done.
        intros dc Hdc [= -> ->]. rewrite Hd' in Hdc. injection Hdc as ->. lia.
    - unfold measure. simpl. lia.
    - apply dists_le_refl. }
  assert (d' = d) as -> by lia.
  destruct (decide (u = end_)) as [->|Hue].
  { (* the goal is popped *)
    right. pose proof (core_nonneg _ Hcore _ _ Hd') as Hd0.
    destruct (follow_spec st (Z.to_nat d) Hcore end_ d Hd')
      as (chain & Hf & Hf' & Hw & Hh'); [lia|].
    exists (rev (chain ++ [start])), (Z.to_nat d). unfold reconstruct. split_and!.
    - intros rf Hrf. by rewrite Hf.
    - intros rf. destruct (Hf' rf []) as [-> | ->]; [by right|by left].
    - split; [done|]. intros q Hq.
      destruct (walk_bound st end_ q (conj Hcore Hset) Hq)
        as [(dc & Hdc & Hle')|(d2 & x & Hin2 & Hle')].
      + rewrite Hd' in Hdc. injection Hdc as <-. lia.
      + rewrite Hperm in Hin2. apply elem_of_cons in Hin2 as [[= -> ->]|Hin2]; [lia|].
        rewrite Forall_forall in Hmin. apply Hmin, item_le_fst in Hin2.
        simpl in Hin2. lia. }
  (* the popped cell is expanded *)
  left.
  assert (Hmid : mid d u (State (distances st) (previous_nodes st) queue')).
  { split; simpl.
    - apply core_pop with (x := (d, u)); try done. by intros dg _ [= _ ->].
    - intros c Hcu. apply settled_pop with (x := (d, u)); try done.
      by intros dc _ [= _ ->].
    - intros d2 x Hx. rewrite Forall_forall in Hmin.
      by apply Hmin, item_le_fst in Hx.
    - intros c dc Hc. by eapply core_level.
    - done. }
  destruct (relax_all_mid d u (neighbors_of u) _ Hmid (neighbors_adjacent u))
    as (st' & -> & Hmid' & Hle' & Hms & Hnb).
  exists st'. split; [done|]. split_and!.
  - split; [apply Hmid'|]. intros c.
    destruct (decide (c = u)) as [->|Hcu]; [|by apply Hmid'].
    intros dc v Hdc _ Hadj Htr. rewrite (mid_cur _ _ _ Hmid') in Hdc.
    injection Hdc as <-. by apply Hnb.
  - unfold measure in *. simpl in *. lia.
  - done.
Qed.

(** The loop returns: the variant bounds the iterations still to run. *)
Lemma loop_returns (n : nat) (st : state) :
  inv st -> (measure st <= n)%nat ->
  exists k r, forall fuel rf, (n <= fuel)%nat -> (k <= rf)%nat ->
    loop fuel rf graph (rows_of graph) (cols_of graph) start end_ st
    = Returned r.
Proof.
  revert st. induction n as [|n IH]; intros st Hinv Hms.
  - exists O, None. intros fuel rf _ _.
    destruct (priority_queue st) eqn:Hq.
    + destruct fuel; simpl; by rewrite Hq.
    + unfold measure in Hms. rewrite Hq in Hms. simpl in Hms. lia.
  - destruct (priority_queue st) as [|x queue] eqn:Hq.
    { exists O, None. intros fuel rf _ _. destruct fuel; simpl; by rewrite Hq. }
    assert (Hne : priority_queue st <> []) by (by rewrite Hq).
    destruct (step_spec st Hinv Hne)
      as [(st' & Hstep & Hinv' & Hlt & _)|(p & k & Hret & _)].
    + destruct (IH st' Hinv') as (k & r & Hloop); [lia|].
      exists k, r. intros fuel rf Hfuel Hrf.
      destruct fuel as [|fuel]; [lia|]. simpl. rewrite Hq, Hstep.
      apply Hloop; lia.
    + exists k, (Some p). intros fuel rf Hfuel Hrf.
      destruct fuel as [|fuel]; [lia|]. simpl. by rewrite Hq, Hret.
Qed.

(** Whatever the fuel, the loop never raises, what it returns is a
    shortest walk, and it returns [None] only when there is no walk. *)
Lemma loop_sound (fuel rf : nat) (st : state) :
  inv st ->
  match loop fuel rf graph (rows_of graph) (cols_of graph) start end_ st with
  | Returned (Some p) => shortest_walk p
  | Returned None => forall q, ~ walk graph start end_ q
  | Raised _ => False
  | OutOfFuel => True
  end.
Proof.
  revert st. induction fuel as [|fuel IH]; intros st Hinv.
  - simpl. destruct (priority_queue st) eqn:Hq; [|done].
    intros q Hq'. destruct (walk_bound st end_ q Hinv Hq')
      as [(dc & Hdc & _)|(d & x & Hin & _)].
    + apply (core_goal st (proj1 Hinv)) in Hdc. rewrite Hq in Hdc. by apply elem_of_nil in Hdc.
    + rewrite Hq in Hin. by apply elem_of_nil in Hin.
  - simpl. destruct (priority_queue st) as [|x queue] eqn:Hq.
    { intros q Hq'. destruct (walk_bound st end_ q Hinv Hq')
        as [(dc & Hdc & _)|(d & y & Hin & _)].
      + apply (core_goal st (proj1 Hinv)) in Hdc. rewrite Hq in Hdc. by apply elem_of_nil in Hdc.
      + rewrite Hq in Hin. by apply elem_of_nil in Hin. }
    assert (Hne : priority_queue st <> []) by (by rewrite Hq).
    destruct (step_spec st Hinv Hne)
      as [(st' & Hstep & Hinv' & _)|(p & k & _ & Hret & Hp)].
    + rewrite Hstep. by apply IH.
    + destruct (Hret rf) as [-> | ->]; done.
Qed.

(** The state built by lines 41-50 satisfies the invariant. *)
Lemma init_state_lookup (c : cell) (d : Z) :
  distances (init_state (rows_of graph) (cols_of graph) start) !! c
  = Some (Fin d) -> c = start /\ d = 0.
Proof.
  simpl. destruct (decide (c = start)) as [->|Hne].
  - rewrite lookup_insert_eq. by intros [= <-].
  - rewrite lookup_insert_ne by done. rewrite init_distances_lookup.
    by destruct (decide _).
Qed.

Lemma init_state_inv : inv (init_state (rows_of graph) (cols_of graph) start).
Proof.
  split; [split|].
  - apply is_heap_singleton.
  - apply lookup_insert_eq.
  - intros c Hc. simpl. destruct (decide (c = start)) as [->|Hne].
    + rewrite lookup_insert_eq. eauto.
    + rewrite lookup_insert_ne by done. rewrite init_distances_lookup.
      rewrite decide_True; [eauto|]. by apply elem_of_grid_cells.
  - intros c d Hc. apply init_state_lookup in Hc as [_ ->]. done.
  - intros d c Hin. apply list_elem_of_singleton in Hin as [= -> ->].
    exists 0. split; [apply lookup_insert_eq|done].
  - intros c dc d x Hc Hin. apply init_state_lookup in Hc as [_ ->].
    apply list_elem_of_singleton in Hin as [= -> ->]. lia.
  - intros c d Hc. apply init_state_lookup in Hc as [-> ->].
    exists [start]. split; [constructor|done].
  - intros c p Hp. simpl in Hp. by rewrite lookup_empty in Hp.
  - intros c d Hc _. by apply init_state_lookup in Hc as [-> _].
  - intros d Hc. apply init_state_lookup in Hc as [-> ->].
    by apply list_elem_of_singleton.
  - intros c dc v Hc Hnin. apply init_state_lookup in Hc as [-> ->].
    exfalso. apply Hnin. by apply list_elem_of_singleton.
Qed.
End Search.

(** ** The result does not depend on the layout of the queue *)

Section Independence.
Variables H1 H2 : Heapq.

(** Two runs agree when they hold the same dictionaries and queues with
    the same entries. *)
Definition agree (st1 st2 : state) : Prop :=
  distances st1 = distances st2 /\
  previous_nodes st1 = previous_nodes st2 /\
  priority_queue st1 ≡ₚ priority_queue st2 /\
  @is_heap H1 (priority_queue st1) /\ @is_heap H2 (priority_queue st2).

Definition agree_result (r1 r2 : result state) : Prop :=
  match r1, r2 with
  | Ok st1, Ok st2 => agree st1 st2
  | Err e1, Err e2 => e1 = e2
  | _, _ => False
  end.

Lemma relax_agree graph rows cols d u st1 st2 v :
  agree st1 st2 ->
  agree_result (@relax H1 graph rows cols d u st1 v)
               (@relax H2 graph rows cols d u st2 v).
Proof.
  intros (Hd & Hp & Hq & Hh1 & Hh2). unfold relax. destruct v as [r c].
  destruct (_ && _); [|done].
  destruct (py_index graph r) as [graph_row|e]; simpl; [|done].
  destruct (py_index graph_row c) as [val|e]; simpl; [|done].
  destruct (val =? 0); [|done].
  rewrite <- Hd. destruct (dict_get (distances st1) (r, c)) as [dn|e]; simpl; [|done].
  destruct (int_lt_dist (d + 1) dn); [|done].
  split_and!; simpl.
  - by rewrite Hd.
  - by rewrite Hp.
  - rewrite !heappush_perm by done. by rewrite Hq.
  - by apply heappush_heap.
  - by apply heappush_heap.
Qed.

Lemma relax_all_agree graph rows cols d u vs st1 st2 :
  agree st1 st2 ->
  agree_result (@relax_all H1 graph rows cols d u st1 vs)
               (@relax_all H2 graph rows cols d u st2 vs).
Proof.
  revert st1 st2. induction vs as [|v vs IH]; intros st1 st2 Hag; simpl; [done|].
  pose proof (relax_agree graph rows cols d u st1 st2 v Hag) as Hr.
  destruct (@relax H1 graph rows cols d u st1 v) as [st1'|e1],
           (@relax H2 graph rows cols d u st2 v) as [st2'|e2]; simpl in *; try done.
  by apply IH.
Qed.

(** The smallest entry of a queue is determined by its entries: the tuple
    ordering is total and antisymmetric. *)
Lemma heappop_agree (q1 q2 : list item) :
  q1 ≡ₚ q2 -> @is_heap H1 q1 -> @is_heap H2 q2 -> q1 <> [] ->
  exists x q1' q2',
    @heappop H1 q1 = Some (x, q1') /\ @heappop H2 q2 = Some (x, q2') /\
    q1' ≡ₚ q2' /\ @is_heap H1 q1' /\ @is_heap H2 q2'.
Proof.
  intros Hq Hh1 Hh2 Hne.
  assert (Hne2 : q2 <> []).
  { intros ->. by apply Permutation_nil_r in Hq. }
  destruct (@heappop_spec H1 q1 Hh1 Hne) as (x1 & q1' & Hp1 & Hh1' & Hperm1 & Hmin1).
  destruct (@heappop_spec H2 q2 Hh2 Hne2) as (x2 & q2' & Hp2 & Hh2' & Hperm2 & Hmin2).
  assert (Hle12 : item_le x1 x2).
  { assert (Hin : x2 ∈ x1 :: q1') by (rewrite <- Hperm1, Hq, Hperm2; left).
    apply elem_of_cons in Hin as [->|Hin].
    - apply item_le_spec. lia.
    - rewrite Forall_forall in Hmin1. by apply Hmin1. }
  assert (Hle21 : item_le x2 x1).
  { assert (Hin : x1 ∈ x2 :: q2') by (rewrite <- Hperm2, <- Hq, Hperm1; left).
    apply elem_of_cons in Hin as [->|Hin].
    - apply item_le_spec. lia.
    - rewrite Forall_forall in Hmin2. by apply Hmin2. }
  pose proof (item_le_antisym _ _ Hle12 Hle21) as <-.
  exists x1, q1', q2'. split_and!; try done.
  apply (Permutation_cons_inv (a := x1)). by rewrite <- Hperm1, <- Hperm2.
Qed.

Lemma loop_agree fuel rf graph rows cols start end_ st1 st2 :
  agree st1 st2 ->
  @loop H1 fuel rf graph rows cols start end_ st1 =
  @loop H2 fuel rf graph rows cols start end_ st2.
Proof.
  revert st1 st2. induction fuel as [|fuel IH]; intros st1 st2 Hag.
  - destruct Hag as (_ & _ & Hq & _). simpl.
    destruct (priority_queue st1) as [|x1 q1], (priority_queue st2) as [|x2 q2];
      try done.
    + by apply Permutation_nil_l in Hq.
    + by apply Permutation_nil_r in Hq.
  - destruct Hag as (Hd & Hp & Hq & Hh1 & Hh2). simpl.
    destruct (priority_queue st1) as [|y1 q1] eqn:Hq1.
    { apply Permutation_nil_l in Hq. by rewrite <- Hq. }
    destruct (priority_queue st2) as [|y2 q2] eqn:Hq2.
    { by apply Permutation_nil_r in Hq. }
    destruct (heappop_agree _ _ Hq Hh1 Hh2)
      as ([d u] & q1' & q2' & Hp1 & Hp2 & Hq' & Hh1' & Hh2'); [done|].
    unfold step. rewrite Hq1, Hq2, Hp1, Hp2, <- Hd, <- Hp.
    destruct (dict_get (distances st1) u) as [dc|e]; [|done].
    destruct (int_gt_dist d dc).
    { apply IH. by red; simpl; split_and!. }
    destruct (decide (u = end_)).
    { unfold reconstruct. by destruct (follow _ _ _ _). }
    pose proof (relax_all_agree graph rows cols d u (neighbors_of u)
      (State (distances st1) (previous_nodes st1) q1')
      (State (distances st1) (previous_nodes st1) q2')) as Hr.
    destruct (@relax_all H1 _ _ _ _ _ _ _) as [st1'|e1],
             (@relax_all H2 _ _ _ _ _ _ _) as [st2'|e2]; simpl in Hr.
    + apply IH, Hr. by red; simpl; split_and!.
    + destruct Hr. by red; simpl; split_and!.
    + destruct Hr. by red; simpl; split_and!.
    + f_equal. apply Hr. by red; simpl; split_and!.
Qed.

Lemma dijkstra_agree fuel graph start end_ :
  @dijkstra H1 fuel graph start end_ = @dijkstra H2 fuel graph start end_.
Proof.
  unfold dijkstra. destruct (py_index graph 0) as [row0|e]; [|done].
  apply loop_agree. red; simpl. split_and!; try done; apply is_heap_singleton.
Qed.
End Independence.

(** ** More fuel does not change an outcome *)

Section Fuel.
Context {HQ : Heapq}.

Lemma follow_mono (fuel fuel' : nat) (prev : gmap cell cell) (cur : cell)
    (acc p : list cell) :
  follow fuel prev cur acc = Some p -> (fuel <= fuel')%nat ->
  follow fuel' prev cur acc = Some p.
Proof.
  revert fuel' cur acc. induction fuel as [|fuel IH]; intros fuel' cur acc; simpl;
    destruct (prev !! cur) as [c|] eqn:Hp.
  - done.
  - intros [= <-] _. by apply follow_stop.
  - intros Hf Hle. destruct fuel' as [|fuel']; [lia|]. simpl. rewrite Hp.
    apply IH; [done|lia].
  - intros [= <-] _. by apply follow_stop.
Qed.

Lemma step_mono (rf rf' : nat) (graph : list (list Z)) (rows cols : Z)
    (start end_ : cell) (st : state) :
  (rf <= rf')%nat ->
  step rf graph rows cols start end_ st <> Diverge ->
  step rf' graph rows cols start end_ st = step rf graph rows cols start end_ st.
Proof.
  intros Hle. unfold step.
  destruct (heappop (priority_queue st)) as [[[d u] queue']|]; [|done].
  destruct (dict_get (distances st) u) as [dc|e]; [|done].
  destruct (int_gt_dist d dc); [done|].
  destruct (decide (u = end_)); [|done].
  unfold reconstruct.
  destruct (follow rf (previous_nodes st) u []) as [p|] eqn:Hf; [|done].
  intros _. by rewrite (follow_mono _ _ _ _ _ _ Hf Hle).
Qed.

Lemma loop_mono (fuel fuel' rf rf' : nat) (graph : list (list Z))
    (rows cols : Z) (start end_ : cell) (st : state) :
  (fuel <= fuel')%nat -> (rf <= rf')%nat ->
  loop fuel rf graph rows cols start end_ st <> OutOfFuel ->
  loop fuel' rf' graph rows cols start end_ st
  = loop fuel rf graph rows cols start end_ st.
Proof.
  revert fuel' st. induction fuel as [|fuel IH]; intros fuel' st Hf Hrf; simpl;
    destruct (priority_queue st) as [|x queue] eqn:Hq.
  - intros _. destruct fuel'; simpl; by rewrite Hq.
  - done.
  - intros _. destruct fuel'; simpl; by rewrite Hq.
  - destruct fuel' as [|fuel']; [lia|]. simpl. rewrite Hq. intros Hne.
    rewrite (step_mono rf rf') by (try done; intros Heq; by rewrite Heq in Hne).
    destruct (step rf graph rows cols start end_ st); try done.
    apply IH; [lia|done|done].
Qed.

Lemma dijkstra_mono (fuel fuel' : nat) (graph : list (list Z))
    (start end_ : cell) :
  (fuel <= fuel')%nat -> dijkstra fuel graph start end_ <> OutOfFuel ->
  dijkstra fuel' graph start end_ = dijkstra fuel graph start end_.
Proof.
  intros Hle. unfold dijkstra. destruct (py_index graph 0); [|done].
  by apply loop_mono.
Qed.
End Fuel.

(** ** The function as a whole *)

Lemma dijkstra_unfold `{HQ : Heapq} (fuel : nat) (graph : list (list Z))
    (start end_ : cell) :
  graph <> [] ->
  dijkstra fuel graph start end_ =
  loop fuel fuel graph (rows_of graph) (cols_of graph) start end_
       (init_state (rows_of graph) (cols_of graph) start).
Proof.
  destruct graph as [|row0 rest]; [done|]. intros _. unfold dijkstra.
  by rewrite (py_index_ok (row0 :: rest) 0 row0).
Qed.

(** On a rectangular grid every call returns, given enough fuel. *)
Lemma dijkstra_returns `{HQ : Heapq} (graph : list (list Z)) (start end_ : cell) :
  well_formed graph ->
  exists n r, forall fuel, (n <= fuel)%nat ->
    dijkstra fuel graph start end_ = Returned r.
Proof.
  intros [Hne Hrect].
  destruct (loop_returns graph start end_ Hrect _ _
              (init_state_inv graph start end_) (Nat.le_refl _))
    as (k & r & Hloop).
  exists (Nat.max (measure graph (init_state (rows_of graph) (cols_of graph) start)) k), r.
  intros fuel Hfuel. rewrite dijkstra_unfold by done. apply Hloop; lia.
Qed.

(** On a rectangular grid no call raises, a returned list is a shortest walk
    from [start] to [end_], and [None] is returned only when no walk
    exists. *)
Lemma dijkstra_sound `{HQ : Heapq} (fuel : nat) (graph : list (list Z))
    (start end_ : cell) :
  well_formed graph ->
  match dijkstra fuel graph start end_ with
  | Returned (Some p) => shortest_walk graph start end_ p
  | Returned None => forall q, ~ walk graph start end_ q
  | Raised _ => False
  | OutOfFuel => True
  end.
Proof.
  intros [Hne Hrect]. rewrite dijkstra_unfold by done.
  apply loop_sound; [done|]. apply init_state_inv.
Qed.

(** A walk exists exactly when a list of cells is returned. *)
Lemma dijkstra_finds `{HQ : Heapq} (graph : list (list Z)) (start end_ : cell)
    (q : list cell) :
  well_formed graph -> walk graph start end_ q ->
  exists n p, (forall fuel, (n <= fuel)%nat ->
                 dijkstra fuel graph start end_ = Returned (Some p)) /\
              shortest_walk graph start end_ p.
Proof.
  intros Hwf Hq. destruct (dijkstra_returns graph start end_ Hwf) as (n & r & Hr).
  pose proof (dijkstra_sound n graph start end_ Hwf) as Hs.
  rewrite (Hr n) in Hs by done. destruct r as [p|].
  - by exists n, p.
  - by apply Hs in Hq.
Qed.

Lemma dijkstra_no_walk `{HQ : Heapq} (graph : list (list Z)) (start end_ : cell) :
  well_formed graph -> (forall q, ~ walk graph start end_ q) ->
  exists n, forall fuel, (n <= fuel)%nat ->
    dijkstra fuel graph start end_ = Returned None.
Proof.
  intros Hwf Hno. destruct (dijkstra_returns graph start end_ Hwf) as (n & r & Hr).
  pose proof (dijkstra_sound n graph start end_ Hwf) as Hs.
  rewrite (Hr n) in Hs by done. destruct r as [p|].
  - destruct Hs as [Hp _]. by apply Hno in Hp.
  - by exists n.
Qed.

(** The first iteration when [start] is [end_]. *)
Lemma dijkstra_same `{HQ : Heapq} (fuel : nat) (graph : list (list Z)) (s : cell) :
  graph <> [] -> dijkstra (S fuel) graph s s = Returned (Some [s]).
Proof.
  intros Hne. rewrite dijkstra_unfold by done. simpl.
  destruct (heappop_spec [(0, s)] (is_heap_singleton _))
    as (x & h' & Hpop & _ & Hperm & _); [done|].
  apply Permutation_singleton_l in Hperm. injection Hperm as <- <-.
  unfold step. simpl. rewrite Hpop. unfold dict_get.
  rewrite lookup_insert_eq. simpl.
  rewrite decide_True by done. unfold reconstruct.
  destruct fuel; simpl; by rewrite lookup_empty.
Qed.

Lemma loop_state_inv `{HQ : Heapq} (graph : list (list Z)) (start end_ : cell)
    (st : state) :
  rectangular graph -> loop_state graph start end_ st -> inv graph start end_ st.
Proof.
  intros Hrect. induction 1 as [|st st' rf Hst IH Hne Hstep].
  - apply init_state_inv.
  - destruct (step_spec graph start end_ Hrect st IH Hne)
      as [(st'' & Hgo & Hinv & _)|(p & k & _ & Hret & _)].
    + rewrite Hgo in Hstep. by injection Hstep as <-.
    + destruct (Hret rf) as [Heq|Heq]; by rewrite Heq in Hstep.
Qed.

Lemma gap_grid_well_formed : well_formed gap_grid.
Proof. split; [done|]. repeat constructor. Qed.

(** ** The contract of [dijkstra] *)

(** C1.  On a non-empty rectangular grid with a traversable start, a list
    returned by [dijkstra] runs from [start] to [end_] inclusive, moves
    between 4-directionally adjacent cells, visits traversable cells only,
    and no path from [start] to [end_] has fewer hops. *)
Theorem dijkstra_shortest_path `{HQ : Heapq} (fuel : nat)
    (graph : list (list Z)) (start end_ : cell) (p : list cell) :
  well_formed graph -> traversable graph start ->
  dijkstra fuel graph start end_ = Returned (Some p) ->
  is_path graph start end_ p /\
  forall q, is_path graph start end_ q -> hops p <= hops q.
Proof.
  intros Hwf Hs Hret. pose proof (dijkstra_sound fuel graph start end_ Hwf) as Hp.
  rewrite Hret in Hp. destruct Hp as [Hw Hmin]. split.
  - by apply is_walk_is_path, walk_is_walk.
  - intros q Hq. by apply Hmin, is_walk_walk, is_path_is_walk.
Qed.

Lemma dijkstra_shortest_path_witness :
  let p := [(0, 0); (0, 1); (0, 2); (1, 2); (2, 2); (2, 1); (2, 0)] in
  is_path gap_grid (0, 0) (2, 0) p /\
  forall q, is_path gap_grid (0, 0) (2, 0) q -> hops p <= hops q.
Proof.
  apply (dijkstra_shortest_path (HQ := sorted_heapq) 20 gap_grid (0, 0) (2, 0)).
  - exact gap_grid_well_formed.
  - concrete_traversable.
  - vm_compute. reflexivity.
Defined.

(** C2.  On a non-empty rectangular grid the call terminates: every run with
    enough fuel returns the same value, a list of cells or [None]; and no
    run raises, so every dictionary lookup and grid index of the search is
    defined. *)
Theorem dijkstra_terminates `{HQ : Heapq} (graph : list (list Z))
    (start end_ : cell) :
  well_formed graph ->
  (exists n r, forall fuel, (n <= fuel)%nat ->
     dijkstra fuel graph start end_ = Returned r) /\
  (forall fuel e, dijkstra fuel graph start end_ <> Raised e).
Proof.
  intros Hwf. split; [by apply dijkstra_returns|].
  intros fuel e Heq. pose proof (dijkstra_sound fuel graph start end_ Hwf) as Hs.
  by rewrite Heq in Hs.
Qed.

Lemma dijkstra_terminates_witness :
  (exists n r, forall fuel, (n <= fuel)%nat ->
     dijkstra fuel gap_grid (0, 0) (2, 0) = Returned r) /\
  (forall fuel e, dijkstra fuel gap_grid (0, 0) (2, 0) <> Raised e).
Proof.
  apply (dijkstra_terminates (HQ := sorted_heapq) gap_grid (0, 0) (2, 0)).
  exact gap_grid_well_formed.
Defined.

(** C5.  When the goal is the start, the first iteration returns the
    single-cell path [[s]]; this needs nothing of the grid beyond its
    first row existing. *)
Theorem dijkstra_start_is_goal `{HQ : Heapq} (fuel : nat)
    (graph : list (list Z)) (s : cell) :
  graph <> [] -> (1 <= fuel)%nat ->
  dijkstra fuel graph s s = Returned (Some [s]).
Proof.
  intros Hne Hfuel. destruct fuel as [|fuel]; [lia|]. by apply dijkstra_same.
Qed.

Lemma dijkstra_start_is_goal_witness :
  dijkstra 1 gap_grid (2, 1) (2, 1) = Returned (Some [(2, 1)]).
Proof.
  apply (dijkstra_start_is_goal (HQ := sorted_heapq) 1 gap_grid (2, 1)).
  - discriminate.
  - lia.
Defined.

(** C6.  On a non-empty rectangular grid with a traversable start, when no
    path of traversable adjacent cells connects [start] to [end_], the call
    returns [None]: it neither raises nor runs forever. *)
Theorem dijkstra_unreachable `{HQ : Heapq} (graph : list (list Z))
    (start end_ : cell) :
  well_formed graph -> traversable graph start ->
  (forall q, ~ is_path graph start end_ q) ->
  exists n, forall fuel, (n <= fuel)%nat ->
    dijkstra fuel graph start end_ = Returned None.
Proof.
  intros Hwf Hs Hno. apply dijkstra_no_walk; [done|].
  intros q Hq. apply (Hno q). by apply is_walk_is_path, walk_is_walk.
Qed.

Lemma wall_grid_well_formed : well_formed wall_grid.
Proof. split; [done|]. repeat constructor. Qed.

Lemma wall_grid_no_path (q : list cell) : ~ is_path wall_grid (0, 0) (1, 2) q.
Proof.
  intros Hq. apply is_path_is_walk, is_walk_walk in Hq.
  pose proof (dijkstra_sound (HQ := sorted_heapq) 20 wall_grid (0, 0) (1, 2)
                wall_grid_well_formed) as Hs.
  vm_compute in Hs. by apply (Hs q).
Qed.

Lemma dijkstra_unreachable_witness :
  exists n, forall fuel, (n <= fuel)%nat ->
    dijkstra fuel wall_grid (0, 0) (1, 2) = Returned None.
Proof.
  apply (dijkstra_unreachable (HQ := sorted_heapq) wall_grid (0, 0) (1, 2)).
  - exact wall_grid_well_formed.
  - concrete_traversable.
  - exact wall_grid_no_path.
Defined.

(** C7.  At every head of the [while] loop, on a non-empty rectangular grid
    with a traversable start: every cell of the grid has an entry in
    [distances]; an entry is [float('inf')] or the number of hops of a path
    of traversable cells from [start] to that cell; and the iteration that
    follows leaves no entry above its previous value. *)
Theorem distances_invariant `{HQ : Heapq} (graph : list (list Z))
    (start end_ : cell) (st : state) :
  well_formed graph -> traversable graph start ->
  loop_state graph start end_ st ->
  (forall c, in_bounds graph c -> is_Some (distances st !! c)) /\
  (forall c x, distances st !! c = Some x ->
     x = Inf \/ exists q, is_path graph start c q /\ x = Fin (hops q)) /\
  (forall rf st',
     priority_queue st <> [] ->
     step rf graph (rows_of graph) (cols_of graph) start end_ st = Continue st' ->
     forall c x, distances st !! c = Some x ->
       exists x', distances st' !! c = Some x' /\ dist_le x' x).
Proof.
  intros [Hne Hrect] Hs Hst.
  pose proof (loop_state_inv graph start end_ st Hrect Hst) as Hinv.
  split_and!.
  - apply Hinv.
  - intros c [|d] Hc; [by left|right].
    destruct (core_reach _ _ _ _ (proj1 Hinv) c d Hc) as (q & Hq & <-).
    exists q. split; [|done]. by apply is_walk_is_path, walk_is_walk.
  - intros rf st' Hq Hstep.
    destruct (step_spec graph start end_ Hrect st Hinv Hq)
      as [(st'' & Hgo & _ & _ & Hle)|(p & k & _ & Hret & _)].
    + rewrite Hgo in Hstep. injection Hstep as <-. exact Hle.
    + destruct (Hret rf) as [Heq|Heq]; by rewrite Heq in Hstep.
Qed.

Lemma distances_invariant_witness :
  let st := init_state (rows_of gap_grid) (cols_of gap_grid) (0, 0) in
  (forall c, in_bounds gap_grid c -> is_Some (distances st !! c)) /\
  (forall c x, distances st !! c = Some x ->
     x = Inf \/ exists q, is_path gap_grid (0, 0) c q /\ x = Fin (hops q)) /\
  (forall rf st',
     priority_queue st <> [] ->
     step rf gap_grid (rows_of gap_grid) (cols_of gap_grid) (0, 0) (2, 0) st
       = Continue st' ->
     forall c x, distances st !! c = Some x ->
       exists x', distances st' !! c = Some x' /\ dist_le x' x).
Proof.
  apply (distances_invariant (HQ := sorted_heapq) gap_grid (0, 0) (2, 0)).
  - exact gap_grid_well_formed.
  - concrete_traversable.
  - apply loop_enter.
Defined.

(** C10.  Two calls with the same grid, start and goal that run to
    completion have the same outcome, cell for cell, however much fuel each
    is given and however the priority queue of each arranges its entries:
    the entry popped is the least for the lexicographic ordering of the
    tuples [(distance, (row, col))], and that ordering leaves no tie. *)
Theorem dijkstra_deterministic (H1 H2 : Heapq) (fuel1 fuel2 : nat)
    (graph : list (list Z)) (start end_ : cell) :
  @dijkstra H1 fuel1 graph start end_ <> OutOfFuel ->
  @dijkstra H2 fuel2 graph start end_ <> OutOfFuel ->
  @dijkstra H1 fuel1 graph start end_ = @dijkstra H2 fuel2 graph start end_.
Proof.
  intros Hne1 Hne2.
  rewrite <- (@dijkstra_mono H1 fuel1 (Nat.max fuel1 fuel2)) by (done || lia).
  rewrite <- (@dijkstra_mono H2 fuel2 (Nat.max fuel1 fuel2)) by (done || lia).
  apply dijkstra_agree.
Qed.

Lemma dijkstra_deterministic_witness :
  @dijkstra sorted_heapq 20 gap_grid (0, 0) (2, 0) =
  @dijkstra scan_heapq 30 gap_grid (0, 0) (2, 0).
Proof.
  apply (dijkstra_deterministic sorted_heapq scan_heapq 20 30 gap_grid
           (0, 0) (2, 0)).
  - vm_compute. discriminate.
  - vm_compute. discriminate.
Defined.

(** ** Open grids and the Manhattan distance *)

Lemma open_grid_traversable (graph : list (list Z)) (c : cell) :
  rectangular graph -> open_grid graph -> in_bounds graph c ->
  traversable graph c.
Proof.
  intros Hrect Hopen Hin. split; [done|].
  destruct (grid_read graph c Hrect Hin) as (graph_row & val & _ & _ & Hv).
  rewrite Hv. f_equal. unfold cell_value in Hv.
  destruct (graph !! Z.to_nat c.1) as [r|] eqn:Hr; [|done].
  pose proof (Forall_lookup_1 _ _ _ _ Hopen Hr) as Hrow.
  exact (Forall_lookup_1 _ _ _ _ Hrow Hv).
Qed.

(** A move changes the Manhattan distance to the start by at most one. *)
Lemma walk_manhattan (graph : list (list Z)) (s c : cell) (q : list cell) :
  walk graph s c q -> manhattan s c <= hops q.
Proof.
  induction 1 as [|c v q Hw IH Hadj Htr].
  - unfold manhattan, hops. simpl. lia.
  - rewrite hops_snoc. apply adjacent_spec in Hadj. unfold manhattan in *. lia.
Qed.

(** Where every cell in bounds is traversable, a walk of Manhattan length
    reaches every cell. *)
Lemma open_walk (graph : list (list Z)) (s : cell) :
  (forall c, in_bounds graph c -> traversable graph c) ->
  in_bounds graph s ->
  forall (n : nat) (c : cell), in_bounds graph c ->
    manhattan s c = Z.of_nat n ->
    exists q, walk graph s c q /\ hops q = Z.of_nat n.
Proof.
  intros Hopen Hs. induction n as [|n IH]; intros c Hc Hm.
  - assert (c = s) as ->.
    { destruct c, s. unfold manhattan in Hm. simpl in Hm. f_equal; lia. }
    exists [s]. split; [constructor|done].
  - assert (exists c', in_bounds graph c' /\ manhattan s c' = Z.of_nat n /\
                       adjacent c' c) as (c' & Hc' & Hm' & Hadj).
    { destruct c as [r k], s as [sr sk]. unfold manhattan, in_bounds in *.
      simpl in *.
      destruct (Z_lt_dec r sr); [exists (r + 1, k)|].
      { rewrite adjacent_spec. simpl. lia. }
      destruct (Z_lt_dec sr r); [exists (r - 1, k)|].
      { rewrite adjacent_spec. simpl. lia. }
      destruct (Z_lt_dec k sk); [exists (r, k + 1)|exists (r, k - 1)].
      all: rewrite adjacent_spec; simpl; lia. }
    destruct (IH c' Hc' Hm') as (q & Hq & Hh).
    exists (q ++ [c]). split.
    + eapply walk_move; [done|done|]. by apply Hopen.
    + rewrite hops_snoc. lia.
Qed.

(** C3.  On a non-empty rectangular grid without obstacles, for start and
    goal in bounds, [dijkstra] returns a path whose number of hops is the
    Manhattan distance between them. *)
Theorem dijkstra_open_grid `{HQ : Heapq} (graph : list (list Z))
    (start end_ : cell) :
  well_formed graph -> open_grid graph ->
  in_bounds graph start -> in_bounds graph end_ ->
  exists n p,
    (forall fuel, (n <= fuel)%nat ->
       dijkstra fuel graph start end_ = Returned (Some p)) /\
    hops p = manhattan start end_.
Proof.
  intros Hwf Hopen Hs He.
  destruct (open_walk graph start
              (fun c => open_grid_traversable graph c (proj2 Hwf) Hopen) Hs
              (Z.to_nat (manhattan start end_)) end_ He)
    as (q & Hq & Hh).
  { unfold manhattan. lia. }
  destruct (dijkstra_finds graph start end_ q Hwf Hq) as (n & p & Hret & Hw & Hmin).
  exists n, p. split; [done|].
  pose proof (walk_manhattan _ _ _ _ Hw). pose proof (Hmin q Hq).
  unfold manhattan in *. lia.
Qed.

Lemma dijkstra_open_grid_witness :
  exists n p,
    (forall fuel, (n <= fuel)%nat ->
       dijkstra fuel open3_grid (0, 0) (2, 2) = Returned (Some p)) /\
    hops p = manhattan (0, 0) (2, 2).
Proof.
  apply (dijkstra_open_grid (HQ := sorted_heapq) open3_grid (0, 0) (2, 2)).
  - split; [done|]. repeat constructor.
  - repeat constructor.
  - concrete_bounds.
  - concrete_bounds.
Defined.

(** ** Adding an obstacle *)

Lemma set_cell_lookup (graph : list (list Z)) (b : cell) (v : Z) (i : nat)
    (graph_row : list Z) :
  set_cell graph b v !! i = Some graph_row ->
  exists graph_row0, graph !! i = Some graph_row0 /\
    length graph_row = length graph_row0 /\
    forall j, graph_row !! j = Some 0 -> graph_row0 !! j = Some 0 \/ v = 0.
Proof.
  unfold set_cell. intros Hrow.
  destruct (decide (i = Z.to_nat b.1)) as [->|Hne].
  - rewrite list_lookup_alter_eq in Hrow.
    destruct (graph !! Z.to_nat b.1) as [r0|]; [|done].
    simpl in Hrow. injection Hrow as <-. exists r0. split; [done|].
    split; [by rewrite length_insert|].
    intros j Hj. destruct (decide (j = Z.to_nat b.2)) as [->|Hj'].
    + right. apply lookup_lt_Some in Hj as Hlt. rewrite length_insert in Hlt.
      rewrite list_lookup_insert_eq in Hj by done. by injection Hj.
    + left. by rewrite list_lookup_insert_ne in Hj by congruence.
  - rewrite list_lookup_alter_ne in Hrow by congruence.
    exists graph_row. by split_and!; [| |left].
Qed.

Lemma set_cell_length (graph : list (list Z)) (b : cell) (v : Z) :
  length (set_cell graph b v) = length graph.
Proof. unfold set_cell. apply length_alter. Qed.

Lemma set_cell_cols (graph : list (list Z)) (b : cell) (v : Z) :
  cols_of (set_cell graph b v) = cols_of graph.
Proof.
  unfold cols_of. f_equal. rewrite !head_lookup.
  destruct (set_cell graph b v !! 0%nat) as [r|] eqn:Hr.
  - destruct (set_cell_lookup _ _ _ _ _ Hr) as (r0 & -> & Hlen & _). done.
  - apply lookup_ge_None in Hr. rewrite set_cell_length in Hr.
    apply lookup_ge_None in Hr. by rewrite Hr.
Qed.

Lemma set_cell_well_formed (graph : list (list Z)) (b : cell) (v : Z) :
  well_formed graph -> well_formed (set_cell graph b v).
Proof.
  intros [Hne Hrect]. split.
  - intros Heq. apply (f_equal length) in Heq. rewrite set_cell_length in Heq.
    by destruct graph.
  - unfold rectangular in *. apply Forall_lookup. intros i r Hr.
    destruct (set_cell_lookup _ _ _ _ _ Hr) as (r0 & Hr0 & Hlen & _).
    pose proof (Forall_lookup_1 _ _ _ _ Hrect Hr0) as Hlen0. simpl in Hlen0.
    pose proof (set_cell_cols graph b v) as Hcols. unfold cols_of in Hcols. lia.
Qed.

Lemma set_cell_traversable (graph : list (list Z)) (b : cell) (v : Z) (c : cell) :
  v <> 0 -> traversable (set_cell graph b v) c -> traversable graph c.
Proof.
  intros Hv [[Hr Hc] Hval]. split.
  - split; [|by rewrite <- (set_cell_cols graph b v)].
    unfold rows_of in *. by rewrite set_cell_length in Hr.
  - unfold cell_value in *.
    destruct (set_cell graph b v !! Z.to_nat c.1) as [r|] eqn:Hrow; [|done].
    destruct (set_cell_lookup _ _ _ _ _ Hrow) as (r0 & -> & _ & Hz).
    by destruct (Hz _ Hval).
Qed.

Lemma set_cell_walk (graph : list (list Z)) (b : cell) (v : Z)
    (s c : cell) (q : list cell) :
  v <> 0 -> walk (set_cell graph b v) s c q -> walk graph s c q.
Proof.
  intros Hv. induction 1 as [|c w q Hw IH Hadj Htr]; [constructor|].
  eapply walk_move; [done|done|]. by eapply set_cell_traversable.
Qed.

(** C4.  When [graph'] is [graph] with one traversable cell turned into an
    obstacle, and [dijkstra] returns a path on both, the path returned on
    [graph'] has at least as many hops as the one returned on [graph]. *)
Theorem dijkstra_monotone `{HQ : Heapq} (fuel fuel' : nat)
    (graph graph' : list (list Z)) (start end_ : cell) (p p' : list cell) :
  well_formed graph -> adds_obstacle graph graph' ->
  dijkstra fuel graph start end_ = Returned (Some p) ->
  dijkstra fuel' graph' start end_ = Returned (Some p') ->
  hops p <= hops p'.
Proof.
  intros Hwf (b & v & Hb & Hv & ->) Hp Hp'.
  pose proof (dijkstra_sound fuel graph start end_ Hwf) as Hs.
  pose proof (dijkstra_sound fuel' (set_cell graph b v) start end_
                (set_cell_well_formed graph b v Hwf)) as Hs'.
  rewrite Hp in Hs. rewrite Hp' in Hs'.
  destruct Hs as [_ Hmin], Hs' as [Hw' _].
  by eapply Hmin, set_cell_walk.
Qed.

Lemma dijkstra_monotone_witness :
  hops [(0, 0); (0, 1); (1, 1); (2, 1); (2, 0)] <=
  hops [(0, 0); (0, 1); (0, 2); (1, 2); (2, 2); (2, 1); (2, 0)].
Proof.
  apply (dijkstra_monotone (HQ := sorted_heapq) 20 20 door_grid gap_grid
           (0, 0) (2, 0)).
  - split; [done|]. repeat constructor.
  - exists (1, 1), 1. split; [concrete_traversable|]. split; [lia|reflexivity].
  - vm_compute. reflexivity.
  - vm_compute. reflexivity.
Defined.

(** ** Inputs outside the contract *)

(** Runs on inputs that are not well formed: a non-rectangular grid, a
    start out of bounds, a blocked start, a blocked goal and a goal out of
    bounds.  None of them is rejected. *)
Lemma unvalidated_runs (fuel : nat) :
  dijkstra (2 + fuel) ragged_grid (0, 0) (0, 1)
    = Returned (Some [(0, 0); (0, 1)]) /\
  dijkstra (5 + fuel) open3_grid (-1, 1) (1, 1)
    = Returned (Some [(-1, 1); (0, 1); (1, 1)]) /\
  dijkstra (3 + fuel) corridor_grid (0, 0) (0, 2)
    = Returned (Some [(0, 0); (0, 1); (0, 2)]) /\
  dijkstra (3 + fuel) corridor_grid (0, 2) (0, 0) = Returned None /\
  dijkstra (3 + fuel) corridor_grid (0, 2) (0, 3) = Returned None.
Proof. split_and!; vm_compute; reflexivity. Qed.

Lemma walk_end (graph : list (list Z)) (s c : cell) (q : list cell) :
  walk graph s c q -> c = s \/ traversable graph c.
Proof. destruct 1; [by left|by right]. Qed.

(** C8, as the specification states it, fails: [dijkstra] does not reject
    every input that is not well formed.  On the grid [[0, 0], [0]], which
    is not rectangular, the call from (0, 0) to (0, 1) returns the path
    [(0, 0), (0, 1)]. *)
Lemma dijkstra_validates_counterexample :
  ~ (forall graph start end_,
       ~ valid_input graph start end_ -> rejects graph start end_).
Proof.
  intros Hclaim.
  destruct (Hclaim ragged_grid (0, 0) (0, 1)) as (n & e & Hraise).
  - intros [[_ Hrect] _]. inversion Hrect as [|? ? _ Hrest]; subst.
    inversion Hrest as [|? ? Hlen _]; subst. discriminate Hlen.
  - pose proof (proj1 (unvalidated_runs n)) as Hrun.
    rewrite Hraise in Hrun by lia. discriminate Hrun.
Qed.

(** C8, amended.  [dijkstra] validates nothing by itself.  An empty grid
    raises IndexError when [graph[0]] is read, before the search state is
    built.  On a non-empty rectangular grid nothing is rejected: a goal that
    is out of bounds or blocked, and is not the start, yields [None]; and
    the start is searched from as given, so that whenever some walk leaves
    it and reaches the goal over traversable cells, a shortest such walk is
    returned, beginning with the start. *)
Theorem dijkstra_no_validation `{HQ : Heapq} (graph : list (list Z))
    (start end_ : cell) :
  (graph = [] ->
   forall fuel, dijkstra fuel graph start end_ = Raised IndexError) /\
  (well_formed graph -> ~ traversable graph end_ -> start <> end_ ->
   exists n, forall fuel, (n <= fuel)%nat ->
     dijkstra fuel graph start end_ = Returned None) /\
  (well_formed graph ->
   forall q, is_walk graph start end_ q ->
   exists n p,
     (forall fuel, (n <= fuel)%nat ->
        dijkstra fuel graph start end_ = Returned (Some p)) /\
     is_walk graph start end_ p /\ hops p <= hops q).
Proof.
  split_and!.
  - intros -> fuel. unfold dijkstra. by rewrite py_index_nil.
  - intros Hwf He Hne. apply dijkstra_no_walk; [done|].
    intros q Hq. apply walk_end in Hq as [->|Htr]; done.
  - intros Hwf q Hq. apply is_walk_walk in Hq.
    destruct (dijkstra_finds graph start end_ q Hwf Hq) as (n & p & Hret & Hw & Hmin).
    exists n, p. split_and!; [done|by apply walk_is_walk|by apply Hmin].
Qed.

Lemma dijkstra_no_validation_witness :
  (forall fuel, dijkstra fuel [] (0, 0) (0, 1) = Raised IndexError) /\
  (exists n, forall fuel, (n <= fuel)%nat ->
     dijkstra fuel corridor_grid (0, 2) (0, 0) = Returned None) /\
  (exists n p,
     (forall fuel, (n <= fuel)%nat ->
        dijkstra fuel corridor_grid (0, 0) (0, 2) = Returned (Some p)) /\
     is_walk corridor_grid (0, 0) (0, 2) p /\
     hops p <= hops [(0, 0); (0, 1); (0, 2)]).
Proof.
  assert (Hwf : well_formed corridor_grid).
  { split; [done|]. repeat constructor. }
  split_and!.
  - by apply (proj1 (dijkstra_no_validation (HQ := sorted_heapq) [] (0, 0) (0, 1))).
  - apply (proj1 (proj2 (dijkstra_no_validation (HQ := sorted_heapq)
                           corridor_grid (0, 2) (0, 0)))).
    + exact Hwf.
    + intros [_ Hv]. discriminate Hv.
    + discriminate.
  - apply (proj2 (proj2 (dijkstra_no_validation (HQ := sorted_heapq)
                           corridor_grid (0, 0) (0, 2)))).
    + exact Hwf.
    + split_and!; [reflexivity|reflexivity| |].
      * split; [by apply adjacent_spec; simpl; lia|].
        split; [by apply adjacent_spec; simpl; lia|done].
      * simpl. repeat (constructor; [concrete_traversable|]). constructor.
Defined.

(** C9.  The grid value of the start cell is never tested.  On the grid
    [[1, 0, 0]] the start (0, 0) is in bounds and blocked; the call to the
    goal (0, 2) at the end of the corridor returns the path
    [(0, 0), (0, 1), (0, 2)], whose first cell is the blocked start, and the
    call with the goal equal to the start returns [[(0, 0)]]. *)
Theorem dijkstra_blocked_start `{HQ : Heapq} :
  exists graph start,
    blocked graph start /\
    (exists end_ p,
       start <> end_ /\ head p = Some start /\
       forall fuel, dijkstra (3 + fuel) graph start end_ = Returned (Some p)) /\
    (forall fuel, dijkstra (1 + fuel) graph start start = Returned (Some [start])).
Proof.
  exists corridor_grid, (0, 0). split_and!.
  - split; [concrete_bounds|]. exists 1. by split.
  - exists (0, 2), [(0, 0); (0, 1); (0, 2)]. split_and!; [done|done|].
    intros fuel. rewrite (dijkstra_agree HQ sorted_heapq).
    apply (unvalidated_runs fuel).
  - intros fuel. by apply dijkstra_same.
Qed.

(** ** The runs of the script and of the specification, evaluated *)

(** A grid whose cell (2, 2) is enclosed by obstacles on its four sides. *)
Definition enclosed_grid : list (list Z) :=
  [[0; 0; 0; 0; 0]; [0; 0; 1; 0; 0]; [0; 1; 0; 1; 0]; [0; 0; 1; 0; 0]].

(** The call of the script, [dijkstra(GAME_MAP, (0, 0), (6, 6))]. *)
Example script_run `{HQ : Heapq} (fuel : nat) :
  dijkstra (60 + fuel) GAME_MAP (0, 0) (6, 6) =
  Returned (Some [(0, 0); (0, 1); (0, 2); (0, 3); (1, 3); (2, 3); (2, 4);
                  (2, 5); (3, 5); (4, 5); (4, 6); (5, 6); (6, 6)]).
Proof. rewrite (dijkstra_agree HQ sorted_heapq). vm_compute. reflexivity. Qed.

(** The 3 by 3 open grid, corner to corner: five cells, four hops. *)
Example open3_run `{HQ : Heapq} (fuel : nat) :
  dijkstra (9 + fuel) open3_grid (0, 0) (2, 2) =
  Returned (Some [(0, 0); (0, 1); (0, 2); (1, 2); (2, 2)]).
Proof. rewrite (dijkstra_agree HQ sorted_heapq). vm_compute. reflexivity. Qed.

(** Row 1 blocked except at column 2: the path goes through (1, 2). *)
Example gap_run `{HQ : Heapq} (fuel : nat) :
  dijkstra (9 + fuel) gap_grid (0, 0) (2, 0) =
  Returned (Some [(0, 0); (0, 1); (0, 2); (1, 2); (2, 2); (2, 1); (2, 0)]).
Proof. rewrite (dijkstra_agree HQ sorted_heapq). vm_compute. reflexivity. Qed.

(** A goal enclosed on its four sides is not reached. *)
Example enclosed_run `{HQ : Heapq} (fuel : nat) :
  dijkstra (20 + fuel) enclosed_grid (0, 0) (2, 2) = Returned None.
Proof. rewrite (dijkstra_agree HQ sorted_heapq). vm_compute. reflexivity. Qed.

(** * Further properties of [dijkstra] *)

(** ** What holds for every input: the shape of a returned list *)

(** The reads [graph[r][c]] of line 79. *)
Definition read (graph : list (list Z)) (c : cell) : result Z :=
  graph_row ← py_index graph c.1; py_index graph_row c.2.

(** The cells passing the bounds test of line 76. *)
Definition in_range (rows cols : Z) (c : cell) : Prop :=
  (0 <= c.1 < rows) /\ (0 <= c.2 < cols).

Section Light.
Context {HQ : Heapq}.
Variable graph : list (list Z).
Variables rows cols : Z.
Variables start end_ : cell.

(** Facts the loop keeps whatever the grid is. *)
Record light (st : state) : Prop := {
  light_heap : is_heap (priority_queue st);
  light_start : distances st !! start = Some (Fin 0);
  light_queue : forall d c, (d, c) ∈ priority_queue st ->
    0 <= d /\ (c = start \/ is_Some (previous_nodes st !! c))
}.

(** The assignment of lines 86-89. *)
Definition updated (d : Z) (u v : cell) (st : state) : state :=
  State (<[v := Fin (d + 1)]> (distances st))
        (<[v := u]> (previous_nodes st))
        (heappush (priority_queue st) (d + 1, v)).

(** One pass of the [for] loop leaves the state alone or assigns. *)
Lemma relax_cases (d : Z) (u v : cell) (st st' : state) :
  relax graph rows cols d u st v = Ok st' ->
  st' = st \/
  (in_range rows cols v /\ read graph v = Ok 0 /\
   (exists dn, distances st !! v = Some dn /\ int_lt_dist (d + 1) dn = true) /\
   st' = updated d u v st).
Proof.
  unfold relax, read. destruct v as [r c]. simpl.
  destruct ((0 <=? r) && (r <? rows) && ((0 <=? c) && (c <? cols))) eqn:Hb.
  2:{ intros [= <-]. by left. }
  destruct (py_index graph r) as [graph_row|e]; simpl; [|done].
  destruct (py_index graph_row c) as [val|e]; simpl; [|done].
  destruct (val =? 0) eqn:Hz.
  2:{ intros [= <-]. by left. }
  apply Z.eqb_eq in Hz as ->.
  unfold dict_get.
  destruct (distances st !! ((r, c) : cell)) as [dn|] eqn:Hdn; simpl; [|done].
  destruct (int_lt_dist (d + 1) dn) eqn:Hlt; intros [= <-]; [right|by left].
  split_and!; [split; simpl; lia|done|by exists dn|done].
Qed.

Lemma relax_light (d : Z) (u v : cell) (st st' : state) :
  light st -> 0 <= d -> relax graph rows cols d u st v = Ok st' -> light st'.
Proof.
  intros [Hh Hs Hq] Hd Hr.
  apply relax_cases in Hr as [->|(_ & _ & (dn & Hdn & Hlt) & ->)]; [done|].
  assert (Hvs : v <> start).
  { intros ->. rewrite Hs in Hdn. injection Hdn as <-. simpl in Hlt. lia. }
  split; simpl.
  - by apply heappush_heap.
  - by rewrite lookup_insert_ne.
  - intros x c Hin. apply (elem_of_heappush _ _ _ Hh) in Hin as [[= -> ->]|Hin].
    + split; [lia|]. right. rewrite lookup_insert_eq. eauto.
    + destruct (Hq _ _ Hin) as [Hx Hc]. split; [done|].
      destruct Hc as [->|Hc]; [by left|right].
      destruct (decide (c = v)) as [->|Hne].
      * rewrite lookup_insert_eq. eauto.
      * by rewrite lookup_insert_ne.
Qed.

Lemma relax_all_light (d : Z) (u : cell) (vs : list cell) (st st' : state) :
  light st -> 0 <= d ->
  relax_all graph rows cols d u st vs = Ok st' -> light st'.
Proof.
  revert st. induction vs as [|v vs IH]; intros st Hl Hd; simpl.
  - by intros [= <-].
  - destruct (relax graph rows cols d u st v) as [st1|e] eqn:Hr; simpl; [|done].
    apply IH; [|done]. by eapply relax_light.
Qed.

(** What an iteration that goes on, or returns, has done. *)
Lemma step_continue_light (rf : nat) (st st' : state) :
  light st -> priority_queue st <> [] ->
  step rf graph rows cols start end_ st = Continue st' -> light st'.
Proof.
  intros Hl Hne. pose proof Hl as [Hh Hs Hq].
  destruct (heappop_spec _ Hh Hne) as ([d u] & queue' & Hpop & Hh' & Hperm & _).
  assert (Hin : (d, u) ∈ priority_queue st) by (rewrite Hperm; left).
  destruct (Hq _ _ Hin) as [Hd _].
  unfold step. rewrite Hpop.
  destruct (dict_get (distances st) u) as [dc|e]; [|done].
  assert (Hl' : light (State (distances st) (previous_nodes st) queue')).
  { split; simpl; [done|done|]. intros x c Hx. apply Hq. rewrite Hperm. by right. }
  destruct (int_gt_dist d dc); [by intros [= <-]|].
  destruct (decide (u = end_)).
  { unfold reconstruct. by destruct (follow _ _ _ _). }
  destruct (relax_all _ _ _ _ _ _ _) as [st1|e] eqn:Hr; [|done].
  intros [= <-]. by eapply relax_all_light.
Qed.

Lemma step_return (rf : nat) (st : state) (r : option (list cell)) :
  step rf graph rows cols start end_ st = Return r ->
  exists d queue' dc path,
    heappop (priority_queue st) = Some ((d, end_), queue') /\
    distances st !! end_ = Some dc /\ int_gt_dist d dc = false /\
    follow rf (previous_nodes st) end_ [] = Some path /\
    r = Some (rev (path ++ [start])).
Proof.
  unfold step.
  destruct (heappop (priority_queue st)) as [[[d u] queue']|]; [|done].
  unfold dict_get. destruct (distances st !! u) as [dc|] eqn:Hdc; [|done].
  destruct (int_gt_dist d dc) eqn:Hgt; [done|].
  destruct (decide (u = end_)) as [->|Hne].
  - unfold reconstruct.
    destruct (follow rf (previous_nodes st) end_ []) as [path|] eqn:Hf; [|done].
    intros [= <-]. by exists d, queue', dc, path.
  - by destruct (relax_all _ _ _ _ _ _ _).
Qed.

(** A list returned by the loop was returned by an iteration entered in a
    state satisfying whatever the iterations that go on preserve. *)
Lemma loop_return_from (I : state -> Prop) (fuel rf : nat) (st : state)
    (r : option (list cell)) :
  (forall st1 st2, I st1 -> priority_queue st1 <> [] ->
     step rf graph rows cols start end_ st1 = Continue st2 -> I st2) ->
  I st ->
  loop fuel rf graph rows cols start end_ st = Returned r ->
  (r = None) \/
  (exists st', I st' /\ priority_queue st' <> [] /\
               step rf graph rows cols start end_ st' = Return r).
Proof.
  intros Hstep. revert st. induction fuel as [|fuel IH]; intros st Hst; simpl;
    destruct (priority_queue st) as [|x queue] eqn:Hq.
  - intros [= <-]. by left.
  - done.
  - intros [= <-]. by left.
  - destruct (step rf graph rows cols start end_ st) as [st1|r1|e|] eqn:Hs;
      try done.
    + apply IH. eapply Hstep; [done| |done]. by rewrite Hq.
    + intros [= <-]. right. exists st. split_and!; [done| |done]. by rewrite Hq.
Qed.

(** The inner loop starts its list with the cell it is entered at, unless
    that cell has no predecessor. *)
Lemma follow_shape (fuel : nat) (prev : gmap cell cell) (cur : cell)
    (acc path : list cell) :
  follow fuel prev cur acc = Some path ->
  (prev !! cur = None /\ path = acc) \/
  (is_Some (prev !! cur) /\ exists rest, path = acc ++ cur :: rest).
Proof.
  revert cur acc. induction fuel as [|fuel IH]; intros cur acc; simpl;
    destruct (prev !! cur) as [p|] eqn:Hp.
  - done.
  - intros [= <-]. by left.
  - intros Hf. right. split; [eauto|].
    apply IH in Hf as [[_ ->]|[_ [rest ->]]].
    + by exists [].
    + exists (p :: rest). by rewrite <- app_assoc.
  - intros [= <-]. by left.
Qed.
End Light.

Lemma init_state_light `{HQ : Heapq} (rows cols : Z) (start : cell) :
  light start (init_state rows cols start).
Proof.
  split; simpl.
  - apply is_heap_singleton.
  - apply lookup_insert_eq.
  - intros d c Hin. apply list_elem_of_singleton in Hin as [= -> ->].
    split; [done|by left].
Qed.

(** ** Entries are exact: nothing in the queue is ever stale *)

Lemma length_bind_const {A B : Type} (f : A -> list B) (l : list A) (n : nat) :
  (forall x, length (f x) = n) -> length (l ≫= f) = (length l * n)%nat.
Proof.
  intros Hf. induction l as [|x l IH]; [done|].
  rewrite bind_cons, length_app, IH, Hf. simpl. lia.
Qed.

Lemma length_range (n : Z) : length (range n) = Z.to_nat n.
Proof. unfold range. by rewrite length_fmap, length_seq. Qed.

(** [len] of the dictionary comprehension. *)
Lemma length_grid_cells (rows cols : Z) :
  length (grid_cells rows cols) = (Z.to_nat rows * Z.to_nat cols)%nat.
Proof.
  unfold grid_cells.
  rewrite (length_bind_const _ _ (Z.to_nat cols)), length_range; [done|].
  intros r. rewrite (length_bind_const _ _ 1%nat), length_range; [lia|done].
Qed.

Lemma count_inf_le (d : gmap cell dist) (l : list cell) :
  (count_inf d l <= length l)%nat.
Proof. induction l as [|c l IH]; simpl; [done|]. destruct (decide _); lia. Qed.

(** The inner loop needs one unit of fuel per cell it appends. *)
Lemma follow_enough (fuel fuel' : nat) (prev : gmap cell cell) (cur : cell)
    (acc path : list cell) :
  follow fuel prev cur acc = Some path ->
  (length path <= length acc + fuel')%nat ->
  follow fuel' prev cur acc = Some path.
Proof.
  revert fuel' cur acc. induction fuel as [|fuel IH]; intros fuel' cur acc; simpl;
    destruct (prev !! cur) as [p|] eqn:Hp.
  - done.
  - intros [= <-] _. by apply follow_stop.
  - intros Hf Hlen. destruct fuel' as [|fuel'].
    + apply follow_shape in Hf as [[_ ->]|[_ [rest ->]]];
        rewrite !length_app in Hlen; simpl in Hlen; lia.
    + simpl. rewrite Hp. apply IH; [done|]. rewrite length_app. simpl. lia.
  - intros [= <-] _. by apply follow_stop.
Qed.

(** An iteration depends on the fuel of the inner loop through its result
    only. *)
Lemma step_follow_eq `{HQ : Heapq} (rf rf' : nat) (graph : list (list Z))
    (rows cols : Z) (start end_ : cell) (st : state) :
  follow rf (previous_nodes st) end_ [] = follow rf' (previous_nodes st) end_ [] ->
  step rf graph rows cols start end_ st = step rf' graph rows cols start end_ st.
Proof.
  intros Heq. unfold step.
  destruct (heappop (priority_queue st)) as [[[d u] queue']|]; [|done].
  destruct (dict_get (distances st) u) as [dc|e]; [|done].
  destruct (int_gt_dist d dc); [done|].
  destruct (decide (u = end_)) as [->|]; [|done].
  unfold reconstruct. by rewrite Heq.
Qed.

Section Exact.
Context {HQ : Heapq}.
Variable graph : list (list Z).
Variables start end_ : cell.
Hypothesis Hrect : rectangular graph.

(** Every queue entry carries the entry of [distances] of its cell, every
    finite entry of [distances] is the length of a shortest walk, and a cell
    is one hop further than its predecessor. *)
Record fine (st : state) : Prop := {
  fine_queue : forall d c, (d, c) ∈ priority_queue st ->
    distances st !! c = Some (Fin d);
  fine_opt : forall c d q, distances st !! c = Some (Fin d) ->
    walk graph start c q -> d <= hops q;
  fine_prev : forall c p, previous_nodes st !! c = Some p ->
    exists dp, distances st !! p = Some (Fin dp) /\
               distances st !! c = Some (Fin (dp + 1))
}.

(** While the cell popped with [d] is expanded: the cells without a finite
    entry are more than [d] hops away. *)
Definition far (d : Z) (st : state) : Prop :=
  forall v q, distances st !! v = Some Inf -> walk graph start v q ->
    d + 1 <= hops q.

(** Finite entries stay as they are. *)
Definition frozen (st st' : state) : Prop :=
  forall c x, distances st !! c = Some (Fin x) ->
    distances st' !! c = Some (Fin x).

(** The iterations still to run: entries waiting, and cells not yet
    reached. *)
Definition work (st : state) : nat :=
  length (priority_queue st) +
  count_inf (distances st) (grid_cells (rows_of graph) (cols_of graph)).

Lemma pop_mid (st : state) (d : Z) (u : cell) (queue' : list item) :
  inv graph start end_ st ->
  priority_queue st ≡ₚ (d, u) :: queue' -> is_heap queue' ->
  Forall (item_le (d, u)) queue' ->
  distances st !! u = Some (Fin d) -> u <> end_ ->
  mid graph start end_ d u
      (State (distances st) (previous_nodes st) queue').
Proof.
  intros [Hcore Hset] Hperm Hh Hmin Hu Hue.
  assert (Hin : (d, u) ∈ priority_queue st) by (rewrite Hperm; left).
  split; simpl.
  - apply core_pop with (x := (d, u)); try done. by intros dg _ [= _ ->].
  - intros c Hcu. apply settled_pop with (x := (d, u)); try done.
    by intros dc _ [= _ ->].
  - intros d2 x Hx. rewrite Forall_forall in Hmin.
    by apply Hmin, item_le_fst in Hx.
  - intros c dc Hc. by eapply core_level.
  - done.
Qed.

Lemma pop_far (st : state) (d : Z) (u : cell) (queue' : list item) :
  inv graph start end_ st ->
  priority_queue st ≡ₚ (d, u) :: queue' ->
  Forall (item_le (d, u)) queue' ->
  far d st.
Proof.
  intros Hinv Hperm Hmin v q Hv Hw.
  assert (Hlow : forall x c, (x, c) ∈ priority_queue st -> d <= x).
  { intros x c Hin. rewrite Hperm in Hin.
    apply elem_of_cons in Hin as [[= -> ->]|Hin]; [lia|].
    rewrite Forall_forall in Hmin. by apply Hmin, item_le_fst in Hin. }
  destruct Hw as [|w v q Hw Hadj Htr].
  - rewrite (core_start _ _ _ _ (proj1 Hinv)) in Hv. done.
  - rewrite hops_snoc.
    destruct (walk_bound graph start end_ st w q Hinv Hw)
      as [(dw & Hdw & Hle)|(x & c & Hin & Hle)].
    + destruct (decide ((dw, w) ∈ priority_queue st)) as [Hin|Hnin].
      * apply Hlow in Hin. lia.
      * destruct (proj2 Hinv w dw v Hdw Hnin Hadj Htr) as (dv & Hdv & _).
        congruence.
    + apply Hlow in Hin. lia.
Qed.

Lemma relax_fine (d : Z) (u v : cell) (st st' : state) :
  mid graph start end_ d u st -> fine st -> far d st ->
  relax graph (rows_of graph) (cols_of graph) d u st v = Ok st' ->
  fine st' /\ far d st' /\ frozen st st' /\ (work st' <= work st)%nat.
Proof.
  intros Hmid Hfine Hfar Hr.
  apply relax_cases in Hr as [->|(Hin & Hread & (dn & Hdn & Hlt) & ->)].
  { split_and!; [done|done|by intros ? ?|done]. }
  destruct Hfine as [Hq Hopt Hprev].
  assert (Hinf : distances st !! v = Some Inf).
  { destruct dn as [|y]; [done|].
    pose proof (mid_upper _ _ _ _ _ _ Hmid _ _ Hdn). simpl in Hlt. lia. }
  pose proof (mid_cur _ _ _ _ _ _ Hmid) as Hu.
  pose proof (core_heap _ _ _ _ (mid_core _ _ _ _ _ _ Hmid)) as Hheap.
  assert (Hvu : v <> u) by (intros ->; congruence).
  split_and!.
  - split; simpl.
    + intros x c Hx. apply (elem_of_heappush _ _ _ Hheap) in Hx as [[= -> ->]|Hx].
      * apply lookup_insert_eq.
      * rewrite lookup_insert_ne; [by apply Hq|].
        intros <-. apply Hq in Hx. congruence.
    + intros c x q. destruct (decide (c = v)) as [->|Hne].
      * rewrite lookup_insert_eq. intros [= <-]. by apply Hfar.
      * rewrite lookup_insert_ne by done. apply Hopt.
    + intros c p. destruct (decide (c = v)) as [->|Hne].
      * rewrite lookup_insert_eq. intros [= <-]. exists d.
        rewrite lookup_insert_ne by done. by rewrite lookup_insert_eq.
      * rewrite lookup_insert_ne by done. intros Hp.
        destruct (Hprev _ _ Hp) as (dp & Hdp & Hdc). exists dp.
        rewrite !lookup_insert_ne; [done|done|]. intros <-. congruence.
  - intros w q. simpl. destruct (decide (w = v)) as [->|Hne].
    + by rewrite lookup_insert_eq.
    + rewrite lookup_insert_ne by done. apply Hfar.
  - intros c x Hc. simpl. rewrite lookup_insert_ne; [done|].
    intros <-. congruence.
  - unfold work. simpl. rewrite length_heappush by done.
    assert (Hv : v ∈ grid_cells (rows_of graph) (cols_of graph)).
    { by apply elem_of_grid_cells. }
    pose proof (count_inf_insert_lt (distances st) _ v (d + 1) Hv Hinf). lia.
Qed.

Lemma relax_all_fine (d : Z) (u : cell) (vs : list cell) (st st' : state) :
  mid graph start end_ d u st -> fine st -> far d st ->
  Forall (adjacent u) vs ->
  relax_all graph (rows_of graph) (cols_of graph) d u st vs = Ok st' ->
  fine st' /\ frozen st st' /\ (work st' <= work st)%nat.
Proof.
  revert st. induction vs as [|v vs IH]; intros st Hmid Hfine Hfar Hadj; simpl.
  - intros [= <-]. split_and!; [done|by intros ? ?|done].
  - inversion Hadj as [|? ? Hv Hvs]; subst.
    destruct (relax_mid graph start end_ Hrect d u v st Hmid Hv)
      as (st1 & Hr & Hmid1 & _).
    rewrite Hr. simpl. intros Hall.
    destruct (relax_fine d u v st st1 Hmid Hfine Hfar Hr)
      as (Hfine1 & Hfar1 & Hfr1 & Hw1).
    destruct (IH st1 Hmid1 Hfine1 Hfar1 Hvs Hall) as (Hfine' & Hfr' & Hw').
    split_and!; [done| |lia]. intros c x Hc. by apply Hfr', Hfr1.
Qed.

(** An iteration that goes on has expanded the popped cell: no entry is
    ever discarded as stale. *)
Lemma step_fine (rf : nat) (st st' : state) :
  inv graph start end_ st -> fine st -> priority_queue st <> [] ->
  step rf graph (rows_of graph) (cols_of graph) start end_ st = Continue st' ->
  fine st' /\ frozen st st' /\ (work st' < work st)%nat.
Proof.
  intros Hinv Hfine Hne.
  destruct (heappop_spec _ (core_heap _ _ _ _ (proj1 Hinv)) Hne)
    as ([d u] & queue' & Hpop & Hh & Hperm & Hmin).
  assert (Hin : (d, u) ∈ priority_queue st) by (rewrite Hperm; left).
  pose proof (fine_queue _ Hfine _ _ Hin) as Hu.
  assert (Hlen : length (priority_queue st) = S (length queue')).
  { by rewrite Hperm. }
  unfold step. rewrite Hpop. unfold dict_get. rewrite Hu. simpl.
  rewrite Z.ltb_irrefl.
  destruct (decide (u = end_)) as [->|Hue].
  { unfold reconstruct. by destruct (follow _ _ _ _). }
  destruct (relax_all _ _ _ _ _ _ _) as [st1|e] eqn:Hr; [|done].
  intros [= <-].
  destruct (relax_all_fine d u (neighbors_of u)
              (State (distances st) (previous_nodes st) queue') st1)
    as (Hf & Hfr & Hw); try done.
  - by apply pop_mid.
  - destruct Hfine as [Hq Hopt Hprev]. split; simpl; [|done|done].
    intros x c Hx. apply Hq. rewrite Hperm. by right.
  - intros v q Hv. exact (pop_far st d u queue' Hinv Hperm Hmin v q Hv).
  - apply neighbors_adjacent.
  - split_and!; [done|done|]. unfold work in *. simpl in *. lia.
Qed.

Lemma init_state_fine :
  fine (init_state (rows_of graph) (cols_of graph) start).
Proof.
  split.
  - intros d c Hin. apply list_elem_of_singleton in Hin as [= -> ->].
    apply lookup_insert_eq.
  - intros c d q Hc Hw. apply init_state_lookup in Hc as [_ ->].
    by eapply walk_hops_nonneg.
  - intros c p Hp. simpl in Hp. by rewrite lookup_empty in Hp.
Qed.

Lemma loop_state_fine (st : state) :
  loop_state graph start end_ st -> fine st.
Proof.
  induction 1 as [|st st' rf Hst IH Hne Hstep]; [apply init_state_fine|].
  eapply step_fine; [|done|done|done]. by apply loop_state_inv.
Qed.
End Exact.

(** ** The returned path is simple, and the loops are short *)

Section Simple.
Context {HQ : Heapq}.
Variable graph : list (list Z).
Variables start end_ : cell.
Hypothesis Hrect : rectangular graph.

(** The cells the inner loop collects are traversable and pairwise
    distinct: their entries in [distances] decrease strictly. *)
Lemma follow_desc (st : state) (fuel : nat) :
  core graph start end_ st ->
  forall cur dc acc out,
    distances st !! cur = Some (Fin dc) ->
    follow fuel (previous_nodes st) cur acc = Some out ->
    exists chain,
      out = acc ++ chain /\ NoDup chain /\
      Forall (fun c => traversable graph c /\
                exists x, distances st !! c = Some (Fin x) /\ 0 < x <= dc) chain.
Proof.
  intros Hcore. induction fuel as [|fuel IH]; intros cur dc acc out Hcur; simpl;
    destruct (previous_nodes st !! cur) as [p|] eqn:Hp.
  - done.
  - intros [= <-]. exists []. rewrite app_nil_r. split_and!; [done|constructor|done].
  - intros Hf.
    destruct (core_prev _ _ _ _ Hcore _ _ Hp)
      as (_ & Htr & dp & dc' & Hdp & Hdc' & Hlt).
    rewrite Hcur in Hdc'. injection Hdc' as <-.
    pose proof (core_nonneg _ _ _ _ Hcore _ _ Hdp) as Hdp0.
    destruct (IH p dp _ _ Hdp Hf) as (chain & -> & Hnd & Hall).
    exists (cur :: chain). split_and!.
    + by rewrite <- app_assoc.
    + constructor; [|done]. intros Hin.
      rewrite Forall_forall in Hall. destruct (Hall _ Hin) as (_ & x & Hx & Hle).
      rewrite Hcur in Hx. injection Hx as <-. lia.
    + constructor.
      * split; [done|]. exists dc. split; [done|lia].
      * eapply Forall_impl; [exact Hall|]. intros c (Hc & x & Hx & Hle).
        split; [done|]. exists x. split; [done|lia].
  - intros [= <-]. exists []. rewrite app_nil_r. split_and!; [done|constructor|done].
Qed.

(** What the iteration that returns has collected. *)
Lemma step_return_chain (rf : nat) (st : state) (p : list cell) :
  inv graph start end_ st -> priority_queue st <> [] ->
  step rf graph (rows_of graph) (cols_of graph) start end_ st = Return (Some p) ->
  exists chain,
    follow rf (previous_nodes st) end_ [] = Some chain /\
    p = start :: rev chain /\ NoDup chain /\ (start ∉ chain) /\
    Forall (traversable graph) chain.
Proof.
  intros [Hcore _] Hne Hstep.
  destruct (heappop_spec _ (core_heap _ _ _ _ Hcore) Hne)
    as (x & queue' & Hpop & _ & Hperm & _).
  apply step_return in Hstep
    as (d & queue'' & dc & path & Hpop' & _ & _ & Hf & [= ->]).
  rewrite Hpop in Hpop'. injection Hpop' as -> ->.
  assert (Hin : (d, end_) ∈ priority_queue st) by (rewrite Hperm; left).
  destruct (core_queue _ _ _ _ Hcore _ _ Hin) as (d' & Hd' & _).
  destruct (follow_desc st rf Hcore end_ d' [] path Hd' Hf)
    as (chain & Heq & Hnd & Hall).
  simpl in Heq. subst chain. exists path.
  rewrite rev_app_distr. simpl. split_and!; [done|done|done| |].
  - intros Hs. rewrite Forall_forall in Hall.
    destruct (Hall _ Hs) as (_ & y & Hy & Hlt).
    rewrite (core_start _ _ _ _ Hcore) in Hy. injection Hy as <-. lia.
  - eapply Forall_impl; [exact Hall|]. by intros c [Hc _].
Qed.

Lemma chain_length (chain : list cell) :
  NoDup chain -> Forall (traversable graph) chain ->
  (length chain <= length (grid_cells (rows_of graph) (cols_of graph)))%nat.
Proof.
  intros Hnd Hall. apply submseteq_length, NoDup_submseteq; [done|].
  intros c Hc. rewrite Forall_forall in Hall.
  apply elem_of_grid_cells, Hall, Hc.
Qed.

(** The loops return within one iteration per grid cell, and one more. *)
Lemma loop_within (n : nat) (st : state) (fuel rf : nat) :
  inv graph start end_ st -> fine graph start st ->
  (work graph st <= n)%nat -> (n <= fuel)%nat ->
  (length (grid_cells (rows_of graph) (cols_of graph)) <= rf)%nat ->
  exists r, loop fuel rf graph (rows_of graph) (cols_of graph) start end_ st
            = Returned r.
Proof.
  revert st fuel. induction n as [|n IH]; intros st fuel Hinv Hfine Hw Hfuel Hrf;
    destruct (priority_queue st) as [|x queue] eqn:Hq.
  - exists None. destruct fuel; simpl; by rewrite Hq.
  - unfold work in Hw. rewrite Hq in Hw. simpl in Hw. lia.
  - exists None. destruct fuel; simpl; by rewrite Hq.
  - assert (Hne : priority_queue st <> []) by (by rewrite Hq).
    destruct fuel as [|fuel]; [lia|]. simpl. rewrite Hq.
    destruct (step_spec graph start end_ Hrect st Hinv Hne)
      as [(st' & Hgo & Hinv' & _)|(p & k & Hret & _)].
    + rewrite Hgo.
      destruct (step_fine graph start end_ Hrect rf st st' Hinv Hfine Hne (Hgo rf))
        as (Hfine' & _ & Hlt).
      apply IH; try done; lia.
    + pose proof (Hret (Nat.max k rf) (Nat.le_max_l _ _)) as Hbig.
      destruct (step_return_chain _ st p Hinv Hne Hbig)
        as (chain & Hf & _ & Hnd & _ & Hall).
      assert (Hlen : (length chain <= rf)%nat).
      { etrans; [|exact Hrf]. by apply chain_length. }
      rewrite (step_follow_eq rf (Nat.max k rf)), Hbig; [by exists (Some p)|].
      rewrite Hf. by apply (follow_enough _ _ _ _ _ _ Hf).
Qed.
End Simple.

(** A returned list was returned by an iteration entered at the head of the
    loop. *)
Lemma dijkstra_return_state `{HQ : Heapq} (fuel : nat) (graph : list (list Z))
    (start end_ : cell) (p : list cell) :
  graph <> [] ->
  dijkstra fuel graph start end_ = Returned (Some p) ->
  exists st, loop_state graph start end_ st /\ priority_queue st <> [] /\
    step fuel graph (rows_of graph) (cols_of graph) start end_ st
    = Return (Some p).
Proof.
  intros Hne Hret. rewrite dijkstra_unfold in Hret by done.
  apply (loop_return_from graph _ _ start end_ (loop_state graph start end_))
    in Hret as [Hnone|Hst]; [done|done| |apply loop_enter].
  intros st1 st2 Hst1 Hq Hstep. by eapply loop_iterate.
Qed.

(** A state one iteration into the search of [gap_grid] from (0, 0). *)
Definition gap_state1 : state :=
  match step 0 gap_grid 3 3 (0, 0) (2, 0) (init_state 3 3 (0, 0)) with
  | Continue st => st
  | _ => init_state 3 3 (0, 0)
  end.

Lemma gap_state1_loop_state :
  loop_state (HQ := sorted_heapq) gap_grid (0, 0) (2, 0) gap_state1.
Proof.
  apply (loop_iterate gap_grid (0, 0) (2, 0)
           (init_state (rows_of gap_grid) (cols_of gap_grid) (0, 0)) _ 0).
  - apply loop_enter.
  - discriminate.
  - vm_compute. reflexivity.
Qed.

(** X1.  On a non-empty rectangular grid, at every head of the [while] loop
    each entry [(d, c)] of the queue has [d = distances[c]], and so has the
    entry that [heappop] returns: the test of line 57 never finds a stale
    entry. *)
Theorem popped_entry_fresh `{HQ : Heapq} (graph : list (list Z))
    (start end_ : cell) (st : state) :
  well_formed graph -> loop_state graph start end_ st ->
  priority_queue st <> [] ->
  (forall d c, (d, c) ∈ priority_queue st ->
     distances st !! c = Some (Fin d)) /\
  (exists d u queue',
     heappop (priority_queue st) = Some ((d, u), queue') /\
     distances st !! u = Some (Fin d) /\ int_gt_dist d (Fin d) = false).
Proof.
  intros [_ Hrect] Hst Hne.
  pose proof (loop_state_fine graph start end_ Hrect st Hst) as Hfine.
  pose proof (loop_state_inv graph start end_ st Hrect Hst) as Hinv.
  split; [apply Hfine|].
  destruct (heappop_spec _ (core_heap _ _ _ _ (proj1 Hinv)) Hne)
    as ([d u] & queue' & Hpop & _ & Hperm & _).
  exists d, u, queue'. split_and!; [done| |apply Z.ltb_irrefl].
  apply (fine_queue graph start st Hfine). rewrite Hperm. by left.
Qed.

Lemma popped_entry_fresh_witness :
  (forall d c, (d, c) ∈ priority_queue gap_state1 ->
     distances gap_state1 !! c = Some (Fin d)) /\
  (exists d u queue',
     heappop (priority_queue gap_state1) = Some ((d, u), queue') /\
     distances gap_state1 !! u = Some (Fin d) /\ int_gt_dist d (Fin d) = false).
Proof.
  apply (popped_entry_fresh (HQ := sorted_heapq) gap_grid (0, 0) (2, 0)).
  - exact gap_grid_well_formed.
  - exact gap_state1_loop_state.
  - vm_compute. discriminate.
Defined.

(** X2.  On a non-empty rectangular grid with a traversable start, a finite
    entry of [distances] is final as soon as it is written: no path from
    [start] to its cell has fewer hops, and the iterations that follow leave
    it unchanged. *)
Theorem distances_final `{HQ : Heapq} (graph : list (list Z))
    (start end_ : cell) (st : state) (c : cell) (d : Z) :
  well_formed graph -> traversable graph start ->
  loop_state graph start end_ st ->
  distances st !! c = Some (Fin d) ->
  (forall q, is_path graph start c q -> d <= hops q) /\
  (forall rf st',
     priority_queue st <> [] ->
     step rf graph (rows_of graph) (cols_of graph) start end_ st = Continue st' ->
     distances st' !! c = Some (Fin d)).
Proof.
  intros [_ Hrect] Hs Hst Hc.
  pose proof (loop_state_fine graph start end_ Hrect st Hst) as Hfine.
  pose proof (loop_state_inv graph start end_ st Hrect Hst) as Hinv.
  split.
  - intros q Hq. apply (fine_opt graph start st Hfine c d q Hc).
    by apply is_walk_walk, is_path_is_walk.
  - intros rf st' Hne Hstep.
    destruct (step_fine graph start end_ Hrect rf st st' Hinv Hfine Hne Hstep)
      as (_ & Hfr & _).
    by apply Hfr.
Qed.

Lemma distances_final_witness :
  let st := init_state (rows_of gap_grid) (cols_of gap_grid) (0, 0) in
  (forall q, is_path gap_grid (0, 0) (0, 0) q -> 0 <= hops q) /\
  (forall rf st',
     priority_queue st <> [] ->
     step rf gap_grid (rows_of gap_grid) (cols_of gap_grid) (0, 0) (2, 0) st
       = Continue st' ->
     distances st' !! (0, 0) = Some (Fin 0)).
Proof.
  apply (distances_final (HQ := sorted_heapq) gap_grid (0, 0) (2, 0)).
  - exact gap_grid_well_formed.
  - concrete_traversable.
  - apply loop_enter.
  - reflexivity.
Defined.

(** X3.  On a non-empty rectangular grid, at every head of the [while] loop
    an entry [previous_nodes[c] = p] joins two adjacent cells, [c]
    traversable, with [distances[c] = distances[p] + 1]: following
    predecessors goes down one hop at a time and cannot cycle. *)
Theorem predecessor_exact `{HQ : Heapq} (graph : list (list Z))
    (start end_ : cell) (st : state) (c p : cell) :
  well_formed graph -> loop_state graph start end_ st ->
  previous_nodes st !! c = Some p ->
  adjacent p c /\ traversable graph c /\
  exists dp, 0 <= dp /\ distances st !! p = Some (Fin dp) /\
             distances st !! c = Some (Fin (dp + 1)).
Proof.
  intros [_ Hrect] Hst Hp.
  pose proof (loop_state_fine graph start end_ Hrect st Hst) as Hfine.
  destruct (loop_state_inv graph start end_ st Hrect Hst) as [Hcore _].
  destruct (core_prev _ _ _ _ Hcore _ _ Hp) as (Hadj & Htr & _).
  destruct (fine_prev graph start st Hfine _ _ Hp) as (dp & Hdp & Hdc).
  split_and!; [done|done|]. exists dp. split_and!; [|done|done].
  by eapply core_nonneg.
Qed.

Lemma predecessor_exact_witness :
  adjacent (0, 0) (0, 1) /\ traversable gap_grid (0, 1) /\
  exists dp, 0 <= dp /\ distances gap_state1 !! (0, 0) = Some (Fin dp) /\
             distances gap_state1 !! (0, 1) = Some (Fin (dp + 1)).
Proof.
  apply (predecessor_exact (HQ := sorted_heapq) gap_grid (0, 0) (2, 0)
           gap_state1).
  - exact gap_grid_well_formed.
  - exact gap_state1_loop_state.
  - vm_compute. reflexivity.
Defined.

(** X4.  On a non-empty rectangular grid a returned path visits no cell
    twice; it has at most [rows * cols + 1] cells, and at most [rows * cols]
    when the start is in bounds. *)
Theorem dijkstra_path_simple `{HQ : Heapq} (fuel : nat)
    (graph : list (list Z)) (start end_ : cell) (p : list cell) :
  well_formed graph ->
  dijkstra fuel graph start end_ = Returned (Some p) ->
  NoDup p /\
  Z.of_nat (length p) <= rows_of graph * cols_of graph + 1 /\
  (in_bounds graph start ->
   Z.of_nat (length p) <= rows_of graph * cols_of graph).
Proof.
  intros [Hne Hrect] Hret.
  destruct (dijkstra_return_state fuel graph start end_ p Hne Hret)
    as (st & Hst & Hq & Hstep).
  pose proof (loop_state_inv graph start end_ st Hrect Hst) as Hinv.
  destruct (step_return_chain graph start end_ fuel st p Hinv Hq Hstep)
    as (chain & _ & -> & Hnd & Hs & Hall).
  assert (Hp : NoDup (start :: rev chain)).
  { constructor; rewrite <- Permutation_rev; done. }
  assert (Hcells : Z.of_nat (length (grid_cells (rows_of graph) (cols_of graph)))
                   = rows_of graph * cols_of graph).
  { rewrite length_grid_cells. unfold rows_of, cols_of. lia. }
  split_and!; [done| |].
  - pose proof (chain_length graph chain Hnd Hall) as Hlen.
    simpl. rewrite length_rev. lia.
  - intros Hin. rewrite <- Hcells. apply inj_le.
    apply submseteq_length, NoDup_submseteq; [done|].
    intros c Hc. apply elem_of_grid_cells.
    apply elem_of_cons in Hc as [->|Hc]; [done|].
    rewrite <- Permutation_rev in Hc. rewrite Forall_forall in Hall.
    apply Hall, Hc.
Qed.

Lemma dijkstra_path_simple_witness :
  let p := [(0, 0); (0, 1); (0, 2); (1, 2); (2, 2); (2, 1); (2, 0)] in
  NoDup p /\
  Z.of_nat (length p) <= rows_of gap_grid * cols_of gap_grid + 1 /\
  (in_bounds gap_grid (0, 0) ->
   Z.of_nat (length p) <= rows_of gap_grid * cols_of gap_grid).
Proof.
  apply (dijkstra_path_simple (HQ := sorted_heapq) 20 gap_grid (0, 0) (2, 0)).
  - exact gap_grid_well_formed.
  - vm_compute. reflexivity.
Defined.

(** With one unit of fuel per grid cell, and one more, the call returns. *)
Lemma dijkstra_within `{HQ : Heapq} (fuel : nat)
    (graph : list (list Z)) (start end_ : cell) :
  well_formed graph ->
  rows_of graph * cols_of graph + 1 <= Z.of_nat fuel ->
  exists r, dijkstra fuel graph start end_ = Returned r.
Proof.
  intros [Hne Hrect] Hfuel. rewrite dijkstra_unfold by done.
  assert (Hcells : Z.of_nat (length (grid_cells (rows_of graph) (cols_of graph)))
                   = rows_of graph * cols_of graph).
  { rewrite length_grid_cells. unfold rows_of, cols_of. lia. }
  apply (loop_within graph start end_ Hrect
           (S (length (grid_cells (rows_of graph) (cols_of graph))))).
  - apply init_state_inv.
  - apply init_state_fine.
  - unfold work. simpl.
    pose proof (count_inf_le
      (<[start:=Fin 0]> (init_distances (rows_of graph) (cols_of graph)))
      (grid_cells (rows_of graph) (cols_of graph))). lia.
  - lia.
  - lia.
Qed.

(** X5.  On a non-empty rectangular grid the search is over within
    [rows * cols + 1] iterations of the [while] loop: any fuel from
    [rows * cols + 1] on yields a returned value, and the same one. *)
Theorem dijkstra_iteration_bound `{HQ : Heapq} (fuel fuel' : nat)
    (graph : list (list Z)) (start end_ : cell) :
  well_formed graph ->
  rows_of graph * cols_of graph + 1 <= Z.of_nat fuel ->
  (fuel <= fuel')%nat ->
  exists r, dijkstra fuel graph start end_ = Returned r /\
            dijkstra fuel' graph start end_ = Returned r.
Proof.
  intros Hwf Hfuel Hle.
  destruct (dijkstra_within fuel graph start end_ Hwf Hfuel) as [r Hr].
  exists r. split; [done|].
  rewrite (dijkstra_mono fuel fuel') by (try done; by rewrite Hr). done.
Qed.

Lemma dijkstra_iteration_bound_witness :
  exists r, dijkstra 10 gap_grid (0, 0) (2, 0) = Returned r /\
            dijkstra 25 gap_grid (0, 0) (2, 0) = Returned r.
Proof.
  apply (dijkstra_iteration_bound (HQ := sorted_heapq) 10 25 gap_grid
           (0, 0) (2, 0)).
  - exact gap_grid_well_formed.
  - vm_compute. discriminate.
  - lia.
Defined.

(** ** Paths reversed and joined *)

Lemma walk_nonempty (graph : list (list Z)) (s c : cell) (q : list cell) :
  walk graph s c q -> q <> [].
Proof. destruct 1; [done|]. by destruct q. Qed.

(** One walk after another. *)
Lemma walk_app (graph : list (list Z)) (a b c : cell) (q1 q2 : list cell) :
  walk graph a b q1 -> walk graph b c q2 ->
  walk graph a c (q1 ++ tail q2) /\ hops (q1 ++ tail q2) = hops q1 + hops q2.
Proof.
  intros H1. induction 1 as [|c v q Hq IH Hadj Htr].
  - simpl. rewrite app_nil_r. split; [done|]. unfold hops. simpl. lia.
  - destruct IH as [Hw Hh]. pose proof (walk_nonempty _ _ _ _ Hq) as Hne.
    assert (Ht : tail (q ++ [v]) = tail q ++ [v]) by (by destruct q).
    rewrite Ht, app_assoc. split; [by eapply walk_move|].
    rewrite !hops_snoc. lia.
Qed.

Lemma last_rev (q : list cell) : last (rev q) = head q.
Proof. destruct q as [|a q]; [done|]. simpl. by rewrite last_snoc. Qed.

Lemma head_rev (q : list cell) : head (rev q) = last q.
Proof. rewrite <- (rev_involutive q) at 2. by rewrite last_rev. Qed.

Lemma linked_rev (q : list cell) : linked q -> linked (rev q).
Proof.
  induction q as [|a q IH]; [done|]. destruct q as [|b q].
  - done.
  - intros [Hab Hl]. change (rev (a :: b :: q)) with (rev (b :: q) ++ [a]).
    apply linked_snoc with (p := b); [by apply IH|apply last_rev|].
    by apply adjacent_sym.
Qed.

(** A path read backwards is a path, with as many hops. *)
Lemma is_path_rev (graph : list (list Z)) (a b : cell) (q : list cell) :
  is_path graph a b q -> is_path graph b a (rev q) /\ hops (rev q) = hops q.
Proof.
  intros (Hh & Hl & Hlk & Ht). split.
  - split_and!.
    + by rewrite head_rev.
    + by rewrite last_rev.
    + by apply linked_rev.
    + apply Forall_forall. intros c Hc. rewrite Forall_forall in Ht.
      apply Ht. by rewrite (Permutation_rev q).
  - unfold hops. by rewrite length_rev.
Qed.

(** Every walk is at least as long as the Manhattan distance, and has its
    parity. *)
Lemma walk_parity (graph : list (list Z)) (s c : cell) (q : list cell) :
  walk graph s c q -> exists k, hops q = manhattan s c + 2 * k /\ 0 <= k.
Proof.
  induction 1 as [|c v q Hw (k & Hk & Hk0) Hadj Htr].
  - exists 0. unfold manhattan, hops. simpl. lia.
  - rewrite hops_snoc. apply adjacent_spec in Hadj. unfold manhattan in *.
    destruct (Z_le_gt_dec
                (Z.abs (s.1 - c.1) + Z.abs (s.2 - c.2) + 1)
                (Z.abs (s.1 - v.1) + Z.abs (s.2 - v.2))).
    + exists k. lia.
    + exists (k + 1). lia.
Qed.

(** X6.  On a non-empty rectangular grid, whenever a path of traversable
    cells, [start] among them, joins [start] to [end_], [dijkstra] returns a
    path within [rows * cols + 1] iterations of its loop, and one with no
    more hops than the path given. *)
Theorem dijkstra_complete `{HQ : Heapq} (fuel : nat) (graph : list (list Z))
    (start end_ : cell) (q : list cell) :
  well_formed graph -> is_path graph start end_ q ->
  rows_of graph * cols_of graph + 1 <= Z.of_nat fuel ->
  exists p, dijkstra fuel graph start end_ = Returned (Some p) /\
            is_path graph start end_ p /\ hops p <= hops q.
Proof.
  intros Hwf Hq Hfuel.
  destruct (dijkstra_within fuel graph start end_ Hwf Hfuel) as [r Hr].
  pose proof (dijkstra_sound fuel graph start end_ Hwf) as Hs.
  rewrite Hr in Hs.
  pose proof (is_walk_walk _ _ _ _ (is_path_is_walk _ _ _ _ Hq)) as Hw.
  destruct r as [p|]; [|by apply Hs in Hw].
  destruct Hs as [Hp Hmin]. exists p. split_and!; [done| |by apply Hmin].
  apply is_walk_is_path, walk_is_walk, Hp.
  destruct Hq as (Hh & _ & _ & Ht). destruct q as [|x q]; [done|].
  injection Hh as ->. by inversion Ht.
Qed.

Lemma dijkstra_complete_witness :
  exists p, dijkstra 10 gap_grid (0, 0) (0, 2) = Returned (Some p) /\
            is_path gap_grid (0, 0) (0, 2) p /\
            hops p <= hops [(0, 0); (0, 1); (0, 2)].
Proof.
  apply (dijkstra_complete (HQ := sorted_heapq) 10 gap_grid (0, 0) (0, 2)).
  - exact gap_grid_well_formed.
  - split_and!; [reflexivity|reflexivity| |].
    + split; [by apply adjacent_spec; simpl; lia|].
      split; [by apply adjacent_spec; simpl; lia|done].
    + repeat (constructor; [concrete_traversable|]). constructor.
  - vm_compute. discriminate.
Defined.

(** X7.  On a non-empty rectangular grid a returned path has at least as
    many hops as the Manhattan distance from [start] to [end_], and the
    same parity. *)
Theorem dijkstra_manhattan_bound `{HQ : Heapq} (fuel : nat)
    (graph : list (list Z)) (start end_ : cell) (p : list cell) :
  well_formed graph ->
  dijkstra fuel graph start end_ = Returned (Some p) ->
  exists k, 0 <= k /\ hops p = manhattan start end_ + 2 * k.
Proof.
  intros Hwf Hret. pose proof (dijkstra_sound fuel graph start end_ Hwf) as Hs.
  rewrite Hret in Hs. destruct Hs as [Hw _].
  destruct (walk_parity _ _ _ _ Hw) as (k & Hk & Hk0). by exists k.
Qed.

Lemma dijkstra_manhattan_bound_witness :
  exists k, 0 <= k /\
    hops [(0, 0); (0, 1); (0, 2); (1, 2); (2, 2); (2, 1); (2, 0)]
    = manhattan (0, 0) (2, 0) + 2 * k.
Proof.
  apply (dijkstra_manhattan_bound (HQ := sorted_heapq) 20 gap_grid (0, 0) (2, 0)).
  - exact gap_grid_well_formed.
  - vm_compute. reflexivity.
Defined.

(** X8.  On a non-empty rectangular grid, between two traversable cells the
    search gives the same answer in both directions: [None] both ways, or
    paths with the same number of hops. *)
Theorem dijkstra_symmetric `{HQ : Heapq} (fuel fuel' : nat)
    (graph : list (list Z)) (a b : cell) (r r' : option (list cell)) :
  well_formed graph -> traversable graph a -> traversable graph b ->
  dijkstra fuel graph a b = Returned r ->
  dijkstra fuel' graph b a = Returned r' ->
  hops <$> r = hops <$> r'.
Proof.
  intros Hwf Ha Hb Hr Hr'.
  pose proof (dijkstra_sound fuel graph a b Hwf) as Hs.
  pose proof (dijkstra_sound fuel' graph b a Hwf) as Hs'.
  rewrite Hr in Hs. rewrite Hr' in Hs'.
  assert (Hback : forall x y q, traversable graph x -> walk graph x y q ->
            exists q', walk graph y x q' /\ hops q' = hops q).
  { intros x y q Hx Hq. apply walk_is_walk, (is_walk_is_path _ _ _ _ Hx) in Hq.
    apply is_path_rev in Hq as [Hq Hh]. exists (rev q). split; [|done].
    by apply is_walk_walk, is_path_is_walk. }
  destruct r as [p|], r' as [p'|]; simpl.
  - destruct Hs as [Hp Hmin], Hs' as [Hp' Hmin'].
    destruct (Hback _ _ _ Ha Hp) as (q' & Hq' & Hh').
    destruct (Hback _ _ _ Hb Hp') as (q & Hq & Hh).
    apply Hmin in Hq. apply Hmin' in Hq'. f_equal. lia.
  - destruct Hs as [Hp _]. destruct (Hback _ _ _ Ha Hp) as (q' & Hq' & _).
    by apply Hs' in Hq'.
  - destruct Hs' as [Hp' _]. destruct (Hback _ _ _ Hb Hp') as (q & Hq & _).
    by apply Hs in Hq.
  - done.
Qed.

Lemma dijkstra_symmetric_witness :
  hops <$> Some [(0, 0); (0, 1); (0, 2); (1, 2); (2, 2); (2, 1); (2, 0)]
  = hops <$> Some [(2, 0); (2, 1); (2, 2); (1, 2); (0, 2); (0, 1); (0, 0)].
Proof.
  apply (dijkstra_symmetric (HQ := sorted_heapq) 20 20 gap_grid (0, 0) (2, 0)).
  - exact gap_grid_well_formed.
  - concrete_traversable.
  - concrete_traversable.
  - vm_compute. reflexivity.
  - vm_compute. reflexivity.
Defined.

(** X9.  On a non-empty rectangular grid, when the search returns a path
    from [a] to [b] and one from [b] to [c], it returns a path from [a] to
    [c] whenever it returns, and that path has at most as many hops as the
    two together. *)
Theorem dijkstra_triangle `{HQ : Heapq} (f1 f2 f3 : nat)
    (graph : list (list Z)) (a b c : cell) (p1 p2 : list cell)
    (r : option (list cell)) :
  well_formed graph ->
  dijkstra f1 graph a b = Returned (Some p1) ->
  dijkstra f2 graph b c = Returned (Some p2) ->
  dijkstra f3 graph a c = Returned r ->
  exists p3, r = Some p3 /\ hops p3 <= hops p1 + hops p2.
Proof.
  intros Hwf H1 H2 H3.
  pose proof (dijkstra_sound f1 graph a b Hwf) as Hs1.
  pose proof (dijkstra_sound f2 graph b c Hwf) as Hs2.
  pose proof (dijkstra_sound f3 graph a c Hwf) as Hs3.
  rewrite H1 in Hs1. rewrite H2 in Hs2. rewrite H3 in Hs3.
  destruct Hs1 as [Hp1 _], Hs2 as [Hp2 _].
  destruct (walk_app _ _ _ _ _ _ Hp1 Hp2) as [Hw Hh].
  destruct r as [p3|]; [|by apply Hs3 in Hw].
  exists p3. split; [done|]. destruct Hs3 as [_ Hmin]. apply Hmin in Hw. lia.
Qed.

Lemma dijkstra_triangle_witness :
  exists p3,
    Some [(0, 0); (0, 1); (0, 2); (1, 2); (2, 2); (2, 1); (2, 0)] = Some p3 /\
    hops p3 <= hops [(0, 0); (0, 1); (0, 2); (1, 2)]
             + hops [(1, 2); (2, 2); (2, 1); (2, 0)].
Proof.
  apply (dijkstra_triangle (HQ := sorted_heapq) 20 20 20 gap_grid
           (0, 0) (1, 2) (2, 0)).
  - exact gap_grid_well_formed.
  - vm_compute. reflexivity.
  - vm_compute. reflexivity.
  - vm_compute. reflexivity.
Defined.

(** ** What the search reads of the grid *)

(** What line 79 learns of a cell: whether it holds 0, or the exception the
    read raises. *)
Definition zero_read (graph : list (list Z)) (c : cell) : result bool :=
  match read graph c with
  | Ok v => Ok (v =? 0)
  | Err e => Err e
  end.

Definition read_error (graph : list (list Z)) (c : cell) : option error :=
  match read graph c with
  | Ok _ => None
  | Err e => Some e
  end.

(** The grid cut to the width of its first row. *)
Definition trim (graph : list (list Z)) : list (list Z) :=
  take (length (default [] (head graph))) <$> graph.

(** No row is shorter than the first. *)
Definition covers (graph : list (list Z)) : Prop :=
  Forall (fun graph_row =>
            (length (default [] (head graph)) <= length graph_row)%nat) graph.

(** Two grids with the same shape and zeros at the same places. *)
Definition same_zeros (graph graph' : list (list Z)) : Prop :=
  Forall2 (Forall2 (fun x y => (x =? 0) = (y =? 0))) graph graph'.

(** Case analysis on every list index in sight. *)
Ltac case_reads :=
  repeat match goal with
  | |- context [py_index ?l ?i] => destruct (py_index l i); simpl in *
  | H : context [py_index ?l ?i] |- _ => destruct (py_index l i); simpl in *
  end.

Section GraphAgree.
Context {HQ : Heapq}.
Variables graph graph' : list (list Z).
Variables rows cols : Z.
Variables start end_ : cell.

(** Away from the start the two grids read alike, and at the start they
    raise alike. *)
Hypothesis Hother : forall c, in_range rows cols c -> c <> start ->
  zero_read graph c = zero_read graph' c.
Hypothesis Hstart : in_range rows cols start ->
  read_error graph start = read_error graph' start.

Lemma relax_graph_agree (d : Z) (u v : cell) (st : state) :
  light start st -> 0 <= d ->
  relax graph rows cols d u st v = relax graph' rows cols d u st v.
Proof.
  intros Hl Hd. unfold relax. destruct v as [r c].
  destruct ((0 <=? r) && (r <? rows) && ((0 <=? c) && (c <? cols))) eqn:Hb;
    [|done].
  assert (Hin : in_range rows cols (r, c)) by (split; simpl; lia).
  destruct (decide ((r, c) = start)) as [Heq|Hne].
  - pose proof (light_start _ _ Hl) as Hs. rewrite <- Heq in Hs, Hstart.
    specialize (Hstart Hin). unfold read_error, read in Hstart. simpl in Hstart.
    unfold dict_get. rewrite Hs. simpl.
    replace (d + 1 <? 0) with false by lia.
    case_reads; try congruence.
    by repeat destruct (_ =? 0).
  - pose proof (Hother _ Hin Hne) as Hz. unfold zero_read, read in Hz.
    simpl in Hz. case_reads; try congruence.
    injection Hz as ->. done.
Qed.

Lemma relax_all_graph_agree (d : Z) (u : cell) (vs : list cell) (st : state) :
  light start st -> 0 <= d ->
  relax_all graph rows cols d u st vs = relax_all graph' rows cols d u st vs.
Proof.
  revert st. induction vs as [|v vs IH]; intros st Hl Hd; simpl; [done|].
  rewrite <- relax_graph_agree by done.
  destruct (relax graph rows cols d u st v) as [st1|e] eqn:Hr; simpl; [|done].
  apply IH; [|done]. by eapply relax_light.
Qed.

Lemma step_graph_agree (rf : nat) (st : state) :
  light start st -> priority_queue st <> [] ->
  step rf graph rows cols start end_ st = step rf graph' rows cols start end_ st.
Proof.
  intros Hl Hne.
  destruct (heappop_spec _ (light_heap _ _ Hl) Hne)
    as ([d u] & queue' & Hpop & Hh & Hperm & _).
  assert (Hin : (d, u) ∈ priority_queue st) by (rewrite Hperm; left).
  destruct (light_queue _ _ Hl _ _ Hin) as [Hd _].
  unfold step. rewrite Hpop.
  destruct (dict_get (distances st) u) as [dc|e]; [|done].
  destruct (int_gt_dist d dc); [done|].
  destruct (decide (u = end_)); [done|].
  rewrite relax_all_graph_agree; [done| |done].
  destruct Hl as [_ Hs Hq]. split; simpl; [done|done|].
  intros x c Hx. apply Hq. rewrite Hperm. by right.
Qed.

Lemma loop_graph_agree (fuel rf : nat) (st : state) :
  light start st ->
  loop fuel rf graph rows cols start end_ st
  = loop fuel rf graph' rows cols start end_ st.
Proof.
  revert st. induction fuel as [|fuel IH]; intros st Hl; simpl; [done|].
  destruct (priority_queue st) as [|x queue] eqn:Hq; [done|].
  assert (Hne : priority_queue st <> []) by (by rewrite Hq).
  rewrite <- step_graph_agree by done.
  destruct (step rf graph rows cols start end_ st) as [st'| | |] eqn:Hs; try done.
  apply IH. by eapply step_continue_light.
Qed.
End GraphAgree.

Lemma py_index_nonneg {A : Type} (l : list A) (i : Z) :
  0 <= i ->
  py_index l i = match l !! Z.to_nat i with
                 | Some x => Ok x
                 | None => Err IndexError
                 end.
Proof.
  intros Hi. unfold py_index. replace (i <? 0) with false by lia.
  destruct (l !! Z.to_nat i) as [x|] eqn:Hx.
  - apply lookup_lt_Some in Hx.
    by replace ((0 <=? i) && (i <? Z.of_nat (length l))) with true by lia.
  - by destruct (_ && _).
Qed.

(** Inside the index range a read finds the stored value or raises
    IndexError. *)
Lemma read_nonneg (graph : list (list Z)) (c : cell) :
  0 <= c.1 -> 0 <= c.2 ->
  read graph c = match cell_value graph c with
                 | Some v => Ok v
                 | None => Err IndexError
                 end.
Proof.
  intros H1 H2. unfold read, cell_value. rewrite py_index_nonneg by done.
  destruct (graph !! Z.to_nat c.1) as [graph_row|]; simpl; [|done].
  by rewrite py_index_nonneg.
Qed.

(** Two grids of the same shape agree for the search when they agree, away
    from the start, on which cells hold 0, and have a cell at the start
    together. *)
Lemma dijkstra_graph_agree `{HQ : Heapq} (fuel : nat)
    (graph graph' : list (list Z)) (start end_ : cell) :
  length graph = length graph' ->
  length (default [] (head graph)) = length (default [] (head graph')) ->
  (forall c, in_bounds graph c -> c <> start ->
     (fun v => v =? 0) <$> cell_value graph c
     = (fun v => v =? 0) <$> cell_value graph' c) ->
  (in_bounds graph start ->
   is_Some (cell_value graph start) <-> is_Some (cell_value graph' start)) ->
  dijkstra fuel graph start end_ = dijkstra fuel graph' start end_.
Proof.
  intros Hlen Hcols Hother Hstart. unfold dijkstra.
  destruct graph as [|row0 rest], graph' as [|row0' rest']; try done.
  rewrite (py_index_ok (row0 :: rest) 0 row0),
          (py_index_ok (row0' :: rest') 0 row0') by done.
  simpl in Hcols. rewrite <- Hlen, <- Hcols.
  apply loop_graph_agree; [| |apply init_state_light].
  - intros c Hc Hne. specialize (Hother c Hc Hne).
    unfold zero_read. rewrite !read_nonneg by apply Hc.
    destruct (cell_value (row0 :: rest) c), (cell_value (row0' :: rest') c);
      simpl in *; congruence.
  - intros Hs. specialize (Hstart Hs).
    unfold read_error. rewrite !read_nonneg by apply Hs.
    destruct (cell_value (row0 :: rest) start),
             (cell_value (row0' :: rest') start); try done.
    + destruct Hstart as [Hx _]. by destruct Hx.
    + destruct Hstart as [_ Hx]. by destruct Hx.
Qed.

Lemma cell_value_set_cell (graph : list (list Z)) (b : cell) (v : Z) (c : cell) :
  cell_value (set_cell graph b v) c =
  if decide (Z.to_nat c.1 = Z.to_nat b.1 /\ Z.to_nat c.2 = Z.to_nat b.2)
  then (fun _ => v) <$> cell_value graph c
  else cell_value graph c.
Proof.
  unfold cell_value, set_cell.
  destruct (decide (Z.to_nat c.1 = Z.to_nat b.1)) as [E1|N1].
  - rewrite E1, list_lookup_alter_eq.
    destruct (graph !! Z.to_nat b.1) as [graph_row|]; simpl.
    + rewrite list_lookup_insert.
      destruct (decide (Z.to_nat c.2 = Z.to_nat b.2)) as [E2|N2].
      * rewrite E2. destruct (graph_row !! Z.to_nat b.2) as [x|] eqn:Hx.
        -- apply lookup_lt_Some in Hx.
           rewrite decide_True by done. by rewrite decide_True.
        -- apply lookup_ge_None in Hx.
           rewrite decide_False by lia. by rewrite decide_True.
      * rewrite decide_False by (intros [? _]; congruence).
        rewrite decide_False by (intros [_ ?]; congruence). done.
    + by destruct (decide _).
  - rewrite list_lookup_alter_ne by congruence.
    rewrite decide_False by (intros [? _]; congruence). done.
Qed.

(** X10.  The value the grid holds at an in-bounds start cell has no
    influence: storing any value there leaves the outcome of the call, path
    included, unchanged. *)
Theorem start_value_irrelevant `{HQ : Heapq} (fuel : nat)
    (graph : list (list Z)) (start end_ : cell) (v : Z) :
  in_bounds graph start ->
  dijkstra fuel (set_cell graph start v) start end_
  = dijkstra fuel graph start end_.
Proof.
  intros Hs. symmetry. apply dijkstra_graph_agree.
  - by rewrite set_cell_length.
  - pose proof (set_cell_cols graph start v) as Hc. unfold cols_of in Hc. lia.
  - intros c Hc Hne. rewrite cell_value_set_cell.
    rewrite decide_False; [done|]. intros [E1 E2]. apply Hne.
    destruct c, start, Hc as [? ?], Hs as [? ?]. simpl in *. f_equal; lia.
  - intros _. rewrite cell_value_set_cell. destruct (decide _); [|done].
    by rewrite fmap_is_Some.
Qed.

Lemma start_value_irrelevant_witness :
  dijkstra 9 (set_cell gap_grid (0, 0) 1) (0, 0) (2, 0)
  = dijkstra 9 gap_grid (0, 0) (2, 0).
Proof.
  apply (start_value_irrelevant (HQ := sorted_heapq) 9 gap_grid (0, 0) (2, 0) 1).
  concrete_bounds.
Defined.

(** X11.  The call depends on the grid only through its shape and through
    which cells hold 0: every non-zero value is an obstacle like any
    other. *)
Theorem obstacle_values_irrelevant `{HQ : Heapq} (fuel : nat)
    (graph graph' : list (list Z)) (start end_ : cell) :
  same_zeros graph graph' ->
  dijkstra fuel graph start end_ = dijkstra fuel graph' start end_.
Proof.
  intros Hsame. pose proof Hsame as Hrows. unfold same_zeros in Hrows.
  rewrite Forall2_lookup in Hrows.
  assert (Hval : forall c, option_Forall2 (fun x y => (x =? 0) = (y =? 0))
                   (cell_value graph c) (cell_value graph' c)).
  { intros c. unfold cell_value. specialize (Hrows (Z.to_nat c.1)).
    destruct Hrows as [r r' Hr|]; [|constructor].
    rewrite Forall2_lookup in Hr. apply Hr. }
  apply dijkstra_graph_agree.
  - by eapply Forall2_length.
  - specialize (Hrows 0%nat). rewrite <- !head_lookup in Hrows.
    destruct Hrows as [r r' Hr|]; simpl; [|done]. by eapply Forall2_length.
  - intros c _ _. destruct (Hval c) as [x y Hxy|]; simpl; [by rewrite Hxy|done].
  - intros _. destruct (Hval start); split; intros [? ?]; eauto; done.
Qed.

Lemma obstacle_values_irrelevant_witness :
  dijkstra 9 gap_grid (0, 0) (2, 0)
  = dijkstra 9 [[0; 0; 0]; [7; -3; 0]; [0; 0; 0]] (0, 0) (2, 0).
Proof.
  apply (obstacle_values_irrelevant (HQ := sorted_heapq) 9 gap_grid).
  repeat constructor.
Defined.

Lemma cell_value_trim (graph : list (list Z)) (c : cell) :
  in_bounds graph c -> cell_value (trim graph) c = cell_value graph c.
Proof.
  intros [_ Hc]. unfold cell_value, trim, cols_of in *.
  rewrite list_lookup_fmap.
  destruct (graph !! Z.to_nat c.1) as [graph_row|]; simpl; [|done].
  rewrite lookup_take. rewrite decide_True by lia. done.
Qed.

Lemma trim_length (graph : list (list Z)) : length (trim graph) = length graph.
Proof. unfold trim. by rewrite length_fmap. Qed.

Lemma trim_cols (graph : list (list Z)) :
  length (default [] (head (trim graph))) = length (default [] (head graph)).
Proof.
  unfold trim. destruct graph as [|row0 rest]; [done|]. simpl.
  by rewrite length_take_le.
Qed.

Lemma dijkstra_trim `{HQ : Heapq} (fuel : nat) (graph : list (list Z))
    (start end_ : cell) :
  dijkstra fuel (trim graph) start end_ = dijkstra fuel graph start end_.
Proof.
  symmetry. apply dijkstra_graph_agree.
  - by rewrite trim_length.
  - by rewrite trim_cols.
  - intros c Hc _. by rewrite cell_value_trim.
  - intros Hs. by rewrite cell_value_trim.
Qed.

(** X12.  The cells of a row beyond the width of the first row are never
    read: cutting every row to that width leaves the outcome unchanged. *)
Theorem dijkstra_ignores_overhang `{HQ : Heapq} (fuel : nat)
    (graph : list (list Z)) (start end_ : cell) :
  dijkstra fuel (trim graph) start end_ = dijkstra fuel graph start end_.
Proof. apply dijkstra_trim. Qed.

Lemma covers_trim_well_formed (graph : list (list Z)) :
  graph <> [] -> covers graph -> well_formed (trim graph).
Proof.
  intros Hne Hcov. split.
  - intros Heq. apply (f_equal length) in Heq. rewrite trim_length in Heq.
    by destruct graph.
  - unfold rectangular. rewrite trim_cols. unfold trim.
    apply Forall_fmap. eapply Forall_impl; [exact Hcov|].
    intros graph_row Hlen. simpl. by rewrite length_take_le.
Qed.

(** X13.  It is enough that no row be shorter than the first: then the call
    never raises, and it returns within [rows * cols + 1] iterations,
    [cols] being the length of the first row. *)
Theorem dijkstra_wide_rows `{HQ : Heapq} (graph : list (list Z))
    (start end_ : cell) :
  graph <> [] -> covers graph ->
  (forall fuel e, dijkstra fuel graph start end_ <> Raised e) /\
  (forall fuel, rows_of graph * cols_of graph + 1 <= Z.of_nat fuel ->
     exists r, dijkstra fuel graph start end_ = Returned r).
Proof.
  intros Hne Hcov. pose proof (covers_trim_well_formed graph Hne Hcov) as Hwf.
  split.
  - intros fuel e. rewrite <- dijkstra_trim.
    pose proof (dijkstra_sound fuel (trim graph) start end_ Hwf) as Hs.
    intros Heq. by rewrite Heq in Hs.
  - intros fuel Hfuel. rewrite <- dijkstra_trim.
    apply dijkstra_within; [done|].
    unfold rows_of, cols_of in *. by rewrite trim_length, trim_cols.
Qed.

(** A grid whose rows are not of one length, none shorter than the first. *)
Definition wide_grid : list (list Z) := [[0; 0]; [1; 0; 0]; [0; 0; 1; 0]].

Lemma dijkstra_wide_rows_witness :
  (forall fuel e, dijkstra fuel wide_grid (0, 0) (2, 0) <> Raised e) /\
  (forall fuel, rows_of wide_grid * cols_of wide_grid + 1 <= Z.of_nat fuel ->
     exists r, dijkstra fuel wide_grid (0, 0) (2, 0) = Returned r).
Proof.
  apply (dijkstra_wide_rows (HQ := sorted_heapq) wide_grid (0, 0) (2, 0)).
  - discriminate.
  - repeat constructor.
Defined.

(** ** The exceptions of the search *)

Lemma py_index_error {A : Type} (l : list A) (i : Z) (e : error) :
  py_index l i = Err e -> e = IndexError.
Proof.
  unfold py_index. destruct (_ && _); [|by intros [= <-]].
  destruct (l !! _); [done|by intros [= <-]].
Qed.

Lemma read_error_index (graph : list (list Z)) (c : cell) (e : error) :
  read graph c = Err e -> e = IndexError.
Proof.
  unfold read. destruct (py_index graph c.1) as [graph_row|e'] eqn:Hr; simpl.
  - apply py_index_error.
  - intros [= <-]. by eapply py_index_error.
Qed.

Section Keyed.
Context {HQ : Heapq}.
Variable graph : list (list Z).
Variables rows cols : Z.
Variables start end_ : cell.

(** Every cell the loop looks up in [distances] is a key of it. *)
Record keyed (st : state) : Prop := {
  keyed_heap : is_heap (priority_queue st);
  keyed_range : forall c, in_range rows cols c -> is_Some (distances st !! c);
  keyed_queue : forall d c, (d, c) ∈ priority_queue st ->
    is_Some (distances st !! c)
}.

(** One pass of the [for] loop in terms of the read of line 79. *)
Lemma relax_read (d : Z) (u v : cell) (st : state) :
  in_range rows cols v ->
  relax graph rows cols d u st v =
  match read graph v with
  | Err e => Err e
  | Ok val =>
      if val =? 0 then
        dn ← dict_get (distances st) v;
        if int_lt_dist (d + 1) dn then Ok (updated d u v st) else Ok st
      else Ok st
  end.
Proof.
  intros [Hr Hc]. unfold relax, read. destruct v as [r c]. simpl in *.
  replace ((0 <=? r) && (r <? rows) && ((0 <=? c) && (c <? cols)))
    with true by lia.
  destruct (py_index graph r) as [graph_row|e]; simpl; [|done].
  by destruct (py_index graph_row c).
Qed.

Lemma relax_keyed (d : Z) (u v : cell) (st : state) :
  keyed st ->
  (exists st', relax graph rows cols d u st v = Ok st' /\ keyed st') \/
  (relax graph rows cols d u st v = Err IndexError /\
   in_range rows cols v /\ read graph v = Err IndexError).
Proof.
  intros Hk.
  destruct (relax graph rows cols d u st v) as [st'|e] eqn:Hr.
  - left. exists st'. split; [done|].
    apply relax_cases in Hr as [->|(_ & _ & _ & ->)]; [done|].
    destruct Hk as [Hh Hrg Hq]. split; simpl.
    + by apply heappush_heap.
    + intros c Hc. destruct (decide (c = v)) as [->|Hne].
      * rewrite lookup_insert_eq. eauto.
      * rewrite lookup_insert_ne by done. eauto.
    + intros x c Hx. apply (elem_of_heappush _ _ _ Hh) in Hx as [[= -> ->]|Hx].
      * rewrite lookup_insert_eq. eauto.
      * destruct (decide (c = v)) as [->|Hne].
        -- rewrite lookup_insert_eq. eauto.
        -- rewrite lookup_insert_ne by done. eauto.
  - right.
    assert (Hin : in_range rows cols v).
    { unfold relax in Hr. destruct v as [r c].
      destruct ((0 <=? r) && (r <? rows) && ((0 <=? c) && (c <? cols))) eqn:Hb;
        [|done].
      split; simpl; lia. }
    rewrite relax_read in Hr by done.
    destruct (read graph v) as [val|e'] eqn:Hread.
    + destruct (val =? 0); [|done].
      destruct (keyed_range _ Hk v Hin) as [dn Hdn].
      unfold dict_get in Hr. rewrite Hdn in Hr. simpl in Hr.
      by destruct (int_lt_dist (d + 1) dn).
    + injection Hr as <-. apply read_error_index in Hread as Heq. by subst e'.
Qed.

Lemma relax_all_keyed (d : Z) (u : cell) (vs : list cell) (st : state) :
  keyed st ->
  (exists st', relax_all graph rows cols d u st vs = Ok st' /\ keyed st') \/
  relax_all graph rows cols d u st vs = Err IndexError.
Proof.
  revert st. induction vs as [|v vs IH]; intros st Hk; simpl.
  - left. by exists st.
  - destruct (relax_keyed d u v st Hk) as [(st1 & -> & Hk1)|[-> _]]; simpl.
    + by apply IH.
    + by right.
Qed.

(** A neighbor inside the index range whose read raises makes the [for]
    loop raise. *)
Lemma relax_all_raises (d : Z) (u v : cell) (vs : list cell) (st : state) :
  keyed st -> v ∈ vs -> in_range rows cols v ->
  read graph v = Err IndexError ->
  relax_all graph rows cols d u st vs = Err IndexError.
Proof.
  revert st. induction vs as [|w vs IH]; intros st Hk Hin Hv Hread; simpl.
  - by apply elem_of_nil in Hin.
  - destruct (relax_keyed d u w st Hk) as [(st1 & Hr & Hk1)|[-> _]]; [|done].
    rewrite Hr. simpl. apply elem_of_cons in Hin as [->|Hin]; [|by apply IH].
    rewrite relax_read, Hread in Hr by done. done.
Qed.

Lemma step_keyed (rf : nat) (st : state) :
  keyed st -> priority_queue st <> [] ->
  match step rf graph rows cols start end_ st with
  | Continue st' => keyed st'
  | Raise e => e = IndexError
  | _ => True
  end.
Proof.
  intros Hk Hne. pose proof Hk as [Hh Hrg Hq].
  destruct (heappop_spec _ Hh Hne) as ([d u] & queue' & Hpop & Hh' & Hperm & _).
  assert (Hin : (d, u) ∈ priority_queue st) by (rewrite Hperm; left).
  destruct (Hq _ _ Hin) as [dc Hdc].
  unfold step. rewrite Hpop. unfold dict_get. rewrite Hdc.
  assert (Hk' : keyed (State (distances st) (previous_nodes st) queue')).
  { split; simpl; [done|done|]. intros x c Hx. apply (Hq x). rewrite Hperm.
    by right. }
  destruct (int_gt_dist d dc); [done|].
  destruct (decide (u = end_)).
  { unfold reconstruct. by destruct (follow _ _ _ _). }
  by destruct (relax_all_keyed d u (neighbors_of u) _ Hk')
    as [(st' & -> & Hst')| ->].
Qed.

Lemma loop_keyed (fuel rf : nat) (st : state) (e : error) :
  keyed st ->
  loop fuel rf graph rows cols start end_ st = Raised e -> e = IndexError.
Proof.
  revert st. induction fuel as [|fuel IH]; intros st Hk; simpl;
    destruct (priority_queue st) as [|x queue] eqn:Hq; try done.
  assert (Hne : priority_queue st <> []) by (by rewrite Hq).
  pose proof (step_keyed rf st Hk Hne) as Hs.
  destruct (step rf graph rows cols start end_ st) as [st'| |e'|]; try done.
  - by apply IH.
  - by intros [= <-].
Qed.

Lemma init_state_keyed : keyed (init_state rows cols start).
Proof.
  split; simpl.
  - apply is_heap_singleton.
  - intros c Hc. destruct (decide (c = start)) as [->|Hne].
    + rewrite lookup_insert_eq. eauto.
    + rewrite lookup_insert_ne by done. rewrite init_distances_lookup.
      rewrite decide_True; [eauto|]. by apply elem_of_grid_cells.
  - intros d c Hin. apply list_elem_of_singleton in Hin as [= -> ->].
    rewrite lookup_insert_eq. eauto.
Qed.
End Keyed.

(** X14.  Whatever the input, malformed or not, a call never raises
    KeyError: no lookup in [distances] misses its key, and the only
    exception there can be is the IndexError of indexing the grid. *)
Theorem dijkstra_never_key_error `{HQ : Heapq} (fuel : nat)
    (graph : list (list Z)) (start end_ : cell) :
  dijkstra fuel graph start end_ <> Raised KeyError.
Proof.
  unfold dijkstra. destruct (py_index graph 0) as [row0|e'] eqn:Hrow.
  - intros Hloop. by apply loop_keyed in Hloop; [|apply init_state_keyed].
  - intros [= ->]. by apply py_index_error in Hrow.
Qed.

(** X15.  On a grid with a short row: when the start is not the goal and
    one of its four neighbors lies inside [rows] by [len(graph[0])] but
    beyond the end of its own row, the call raises IndexError in its first
    iteration. *)
Theorem dijkstra_short_row_raises `{HQ : Heapq} (fuel : nat)
    (graph : list (list Z)) (start end_ v : cell) :
  start <> end_ -> adjacent start v -> in_bounds graph v ->
  cell_value graph v = None -> (1 <= fuel)%nat ->
  dijkstra fuel graph start end_ = Raised IndexError.
Proof.
  intros Hse Hadj Hv Hnone Hfuel.
  assert (Hne : graph <> []).
  { intros ->. destruct Hv as [Hr _]. unfold rows_of in Hr. simpl in Hr. lia. }
  rewrite dijkstra_unfold by done. destruct fuel as [|fuel]; [lia|]. simpl.
  destruct (heappop_spec [(0, start)] (is_heap_singleton _))
    as (x & h' & Hpop & _ & Hperm & _); [done|].
  apply Permutation_singleton_l in Hperm. injection Hperm as <- <-.
  unfold step. simpl. rewrite Hpop. unfold dict_get.
  rewrite lookup_insert_eq. simpl. rewrite decide_False by done.
  rewrite (relax_all_raises graph (rows_of graph) (cols_of graph) 0 start v);
    try done.
  - pose proof (init_state_keyed (rows_of graph) (cols_of graph) start) as Hk.
    destruct Hk as [_ Hrg _]. split; simpl; [|done|].
    + destruct (heappop_spec [(0, start)] (is_heap_singleton _))
        as (x & h' & Hpop' & Hh & Hperm & _); [done|].
      apply Permutation_singleton_l in Hperm. by injection Hperm as <- <-.
    + intros d c Hin. by apply elem_of_nil in Hin.
  - rewrite read_nonneg by apply Hv. by rewrite Hnone.
Qed.

Lemma dijkstra_short_row_raises_witness :
  dijkstra 1 ragged_grid (0, 1) (0, 0) = Raised IndexError.
Proof.
  apply (dijkstra_short_row_raises (HQ := sorted_heapq) 1 ragged_grid
           (0, 1) (0, 0) (1, 1)).
  - discriminate.
  - apply adjacent_spec. simpl. lia.
  - concrete_bounds.
  - reflexivity.
  - lia.
Defined.

(** ** A returned list is a walk, whatever the grid *)

Section Pred.
Context {HQ : Heapq}.
Variable graph : list (list Z).
Variables rows cols : Z.
Variables start end_ : cell.

(** What lines 76 and 79 have checked of a cell. *)
Definition checked (c : cell) : Prop :=
  in_range rows cols c /\ read graph c = Ok 0.

(** Every entry of [previous_nodes] is a move onto a checked cell, from the
    start or from a cell that has an entry itself. *)
Record pred_ok (st : state) : Prop := {
  pred_light : light start st;
  pred_edge : forall c p, previous_nodes st !! c = Some p ->
    adjacent p c /\ checked c /\
    (p = start \/ is_Some (previous_nodes st !! p))
}.

Lemma relax_pred (d : Z) (u v : cell) (st st' : state) :
  pred_ok st -> 0 <= d -> adjacent u v ->
  (u = start \/ is_Some (previous_nodes st !! u)) ->
  relax graph rows cols d u st v = Ok st' -> pred_ok st'.
Proof.
  intros [Hl He] Hd Hadj Hu Hr. split; [by eapply relax_light|].
  apply relax_cases in Hr as [->|(Hin & Hread & _ & ->)]; [done|]. simpl.
  assert (Hkeep : forall p, p = start \/ is_Some (previous_nodes st !! p) ->
            p = start \/ is_Some (<[v:=u]> (previous_nodes st) !! p)).
  { intros p [->|Hp]; [by left|right]. destruct (decide (p = v)) as [->|Hne].
    - rewrite lookup_insert_eq. eauto.
    - by rewrite lookup_insert_ne. }
  intros c p. destruct (decide (c = v)) as [->|Hne].
  - rewrite lookup_insert_eq. intros [= <-]. split_and!; [done|done|by apply Hkeep].
  - rewrite lookup_insert_ne by done. intros Hp.
    destruct (He _ _ Hp) as (Ha & Hc & Hpp). split_and!; [done|done|by apply Hkeep].
Qed.

Lemma relax_all_pred (d : Z) (u : cell) (vs : list cell) (st st' : state) :
  pred_ok st -> 0 <= d -> Forall (adjacent u) vs ->
  (u = start \/ is_Some (previous_nodes st !! u)) ->
  relax_all graph rows cols d u st vs = Ok st' -> pred_ok st'.
Proof.
  revert st. induction vs as [|v vs IH]; intros st Hp Hd Hadj Hu; simpl.
  - by intros [= <-].
  - inversion Hadj as [|? ? Hv Hvs]; subst.
    destruct (relax graph rows cols d u st v) as [st1|e] eqn:Hr; simpl; [|done].
    apply IH; [by eapply relax_pred|done|done|].
    destruct Hu as [->|Hu]; [by left|right].
    apply relax_cases in Hr as [->|(_ & _ & _ & ->)]; [done|]. simpl.
    destruct (decide (u = v)) as [->|Hne].
    + rewrite lookup_insert_eq. eauto.
    + by rewrite lookup_insert_ne.
Qed.

Lemma step_pred (rf : nat) (st st' : state) :
  pred_ok st -> priority_queue st <> [] ->
  step rf graph rows cols start end_ st = Continue st' -> pred_ok st'.
Proof.
  intros Hp Hne. pose proof Hp as [Hl He]. pose proof Hl as [Hh Hs Hq].
  destruct (heappop_spec _ Hh Hne) as ([d u] & queue' & Hpop & Hh' & Hperm & _).
  assert (Hin : (d, u) ∈ priority_queue st) by (rewrite Hperm; left).
  destruct (Hq _ _ Hin) as [Hd Hu].
  unfold step. rewrite Hpop.
  destruct (dict_get (distances st) u) as [dc|e]; [|done].
  assert (Hp' : pred_ok (State (distances st) (previous_nodes st) queue')).
  { split; [split|]; simpl; [done|done| |done].
    intros x c Hx. apply Hq. rewrite Hperm. by right. }
  destruct (int_gt_dist d dc); [by intros [= <-]|].
  destruct (decide (u = end_)).
  { unfold reconstruct. by destruct (follow _ _ _ _). }
  destruct (relax_all _ _ _ _ _ _ _) as [st1|e] eqn:Hr; [|done].
  intros [= <-].
  by eapply (relax_all_pred d u (neighbors_of u)); [| |apply neighbors_adjacent| |].
Qed.

(** The inner loop collects a chain of moves back to the start. *)
Lemma follow_walk (st : state) (fuel : nat) :
  pred_ok st ->
  forall cur acc out,
    (cur = start \/ is_Some (previous_nodes st !! cur)) ->
    follow fuel (previous_nodes st) cur acc = Some out ->
    exists chain,
      out = acc ++ chain /\ last (start :: rev chain) = Some cur /\
      linked (start :: rev chain) /\ Forall checked chain.
Proof.
  intros [_ He]. induction fuel as [|fuel IH]; intros cur acc out Hcur; simpl;
    destruct (previous_nodes st !! cur) as [p|] eqn:Hp; try done.
  1, 3: intros [= <-]; exists []; rewrite app_nil_r;
        destruct Hcur as [->|[? ?]]; [|done]; by split_and!.
  intros Hf. destruct (He _ _ Hp) as (Hadj & Hc & Hpp).
  destruct (IH p _ _ Hpp Hf) as (chain & -> & Hlast & Hlk & Hall).
  exists (cur :: chain). split_and!.
  - by rewrite <- app_assoc.
  - change (start :: rev (cur :: chain)) with ((start :: rev chain) ++ [cur]).
    by rewrite last_snoc.
  - exact (linked_snoc (start :: rev chain) p cur Hlk Hlast Hadj).
  - by constructor.
Qed.
End Pred.

(** What [dijkstra] hands back from line 67 is a walk of the grid, on any
    input. *)
Lemma dijkstra_returned_walk `{HQ : Heapq} (fuel : nat) (graph : list (list Z))
    (start end_ : cell) (p : list cell) :
  dijkstra fuel graph start end_ = Returned (Some p) ->
  is_walk graph start end_ p.
Proof.
  unfold dijkstra. destruct (py_index graph 0) as [row0|e] eqn:Hrow; [|done].
  assert (Hcols : Z.of_nat (length row0) = cols_of graph).
  { destruct graph as [|r0 rest]; [by rewrite py_index_nil in Hrow|].
    rewrite (py_index_ok (r0 :: rest) 0 r0) in Hrow by done.
    by injection Hrow as ->. }
  rewrite Hcols. fold (rows_of graph). intros Hloop.
  apply (loop_return_from graph _ _ start end_
           (pred_ok graph (rows_of graph) (cols_of graph) start)) in Hloop
    as [Hnone|(st & Hp & Hne & Hstep)]; [done| | |].
  2:{ intros st1 st2. apply step_pred. }
  2:{ split; [apply init_state_light|]. intros c q Hq. simpl in Hq.
      by rewrite lookup_empty in Hq. }
  destruct (heappop_spec _ (light_heap _ _ (pred_light _ _ _ _ _ Hp)) Hne)
    as (x & queue' & Hpop & _ & Hperm & _).
  apply step_return in Hstep
    as (d & queue'' & dc & path & Hpop' & _ & _ & Hf & [= ->]).
  rewrite Hpop in Hpop'. injection Hpop' as -> ->.
  assert (Hin : (d, end_) ∈ priority_queue st) by (rewrite Hperm; left).
  destruct (light_queue _ _ (pred_light _ _ _ _ _ Hp) _ _ Hin) as [_ Hend].
  destruct (follow_walk graph _ _ start st fuel Hp end_ [] path Hend Hf)
    as (chain & Heq & Hlast & Hlk & Hall).
  simpl in Heq. subst chain. rewrite rev_app_distr. simpl.
  split_and!; [done|done|done|].
  simpl. apply Forall_forall. intros c Hc. rewrite <- Permutation_rev in Hc.
  rewrite Forall_forall in Hall. destruct (Hall _ Hc) as [Hrg Hread].
  split; [done|]. rewrite read_nonneg in Hread by apply Hrg.
  destruct (cell_value graph c); by inversion Hread.
Qed.

(** X16.  Whatever the grid, the start and the goal are, malformed or not, a
    list returned by [dijkstra] is a walk: it is not empty, begins with
    [start], ends with [end_], moves between adjacent cells, and each of its
    cells after the first is in bounds and holds 0.  In particular the test
    [if shortest_path:] of the script fails on [None] only. *)
Theorem dijkstra_path_valid `{HQ : Heapq} (fuel : nat) (graph : list (list Z))
    (start end_ : cell) (p : list cell) :
  dijkstra fuel graph start end_ = Returned (Some p) ->
  p <> [] /\ is_walk graph start end_ p.
Proof.
  intros Hret. apply dijkstra_returned_walk in Hret as Hw. split; [|done].
  intros ->. by destruct Hw as [Hh _].
Qed.

Lemma dijkstra_path_valid_witness :
  let p := [(0, 0); (0, 1)] in
  p <> [] /\ is_walk ragged_grid (0, 0) (0, 1) p.
Proof.
  apply (dijkstra_path_valid (HQ := sorted_heapq) 2 ragged_grid (0, 0) (0, 1)).
  vm_compute. reflexivity.
Defined.

(** * The script: drawing the path on the map (lines 108-112) *)

(** A cell of [path_map]: an int of the map, or the string ['*']. *)
Inductive tile : Type :=
| Num (v : Z)
| Star.

(** [[list(row) for row in GAME_MAP]] *)
Definition copy_map (game_map : list (list Z)) : list (list tile) :=
  (fun map_row : list Z => Num <$> map_row) <$> game_map.

(** Python item assignment [l[i] = x]: negative indices count from the end,
    and an index outside [-len, len) raises IndexError. *)
Definition py_set {A : Type} (l : list A) (i : Z) (x : A) : result (list A) :=
  let n := Z.of_nat (length l) in
  let j := if i <? 0 then i + n else i in
  if (0 <=? j) && (j <? n) then Ok (<[Z.to_nat j := x]> l)
  else Err IndexError.

(** [path_map[r][c] = '*']: the row fetched is the object stored in
    [path_map], so the assignment shows there. *)
Definition mark_cell (path_map : list (list tile)) (c : cell)
  : result (list (list tile)) :=
  map_row ← py_index path_map c.1;
  map_row' ← py_set map_row c.2 Star;
  py_set path_map c.1 map_row'.

(** The [for r, c in shortest_path] loop of lines 110-112. *)
Fixpoint mark_path (path_map : list (list tile)) (shortest_path : list cell)
    (ai_position player_position : cell) : result (list (list tile)) :=
  match shortest_path with
  | [] => Ok path_map
  | c :: rest =>
      if negb (bool_decide (c = ai_position)) &&
         negb (bool_decide (c = player_position))
      then
        path_map' ← mark_cell path_map c;
        mark_path path_map' rest ai_position player_position
      else mark_path path_map rest ai_position player_position
  end.

(** What [path_map] shows at a cell. *)
Definition tile_at (path_map : list (list tile)) (c : cell) : option tile :=
  match path_map !! Z.to_nat c.1 with
  | Some map_row => map_row !! Z.to_nat c.2
  | None => None
  end.

Lemma py_set_nonneg {A : Type} (l : list A) (i : Z) (x : A) :
  0 <= i -> (Z.to_nat i < length l)%nat ->
  py_set l i x = Ok (<[Z.to_nat i := x]> l).
Proof.
  intros Hi Hlt. unfold py_set. replace (i <? 0) with false by lia.
  by replace ((0 <=? i) && (i <? Z.of_nat (length l))) with true by lia.
Qed.

Lemma tile_at_copy (game_map : list (list Z)) (c : cell) :
  tile_at (copy_map game_map) c = Num <$> cell_value game_map c.
Proof.
  unfold tile_at, copy_map, cell_value. rewrite list_lookup_fmap.
  destruct (game_map !! Z.to_nat c.1) as [graph_row|]; simpl; [|done].
  by rewrite list_lookup_fmap.
Qed.

(** Marking a cell the map has. *)
Lemma mark_cell_spec (path_map : list (list tile)) (c : cell) :
  0 <= c.1 -> 0 <= c.2 -> is_Some (tile_at path_map c) ->
  exists path_map',
    mark_cell path_map c = Ok path_map' /\
    forall c', 0 <= c'.1 -> 0 <= c'.2 ->
      tile_at path_map' c' =
      if decide (c' = c) then Some Star else tile_at path_map c'.
Proof.
  intros H1 H2 [t Ht]. unfold tile_at in Ht.
  destruct (path_map !! Z.to_nat c.1) as [map_row|] eqn:Hrow; [|done].
  apply lookup_lt_Some in Hrow as Hlt1. apply lookup_lt_Some in Ht as Hlt2.
  exists (<[Z.to_nat c.1 := <[Z.to_nat c.2 := Star]> map_row]> path_map). split.
  - unfold mark_cell. rewrite py_index_nonneg, Hrow by done. simpl.
    rewrite py_set_nonneg by done. simpl. by rewrite py_set_nonneg.
  - intros c' H1' H2'. unfold tile_at.
    destruct (decide (Z.to_nat c'.1 = Z.to_nat c.1)) as [E1|N1].
    + rewrite E1, list_lookup_insert_eq, Hrow by done.
      destruct (decide (Z.to_nat c'.2 = Z.to_nat c.2)) as [E2|N2].
      * rewrite E2, list_lookup_insert_eq by done.
        rewrite decide_True; [done|]. destruct c, c'; simpl in *. f_equal; lia.
      * rewrite list_lookup_insert_ne by congruence.
        rewrite decide_False; [done|]. by intros ->.
    + rewrite list_lookup_insert_ne by congruence.
      rewrite decide_False; [done|]. by intros ->.
Qed.

(** The whole loop, on a list whose cells, the two positions apart, are
    cells of the map. *)
Lemma mark_path_spec (shortest_path : list cell) (ai player : cell)
    (path_map : list (list tile)) :
  Forall (fun c => c = ai \/ c = player \/
            (0 <= c.1 /\ 0 <= c.2 /\ is_Some (tile_at path_map c)))
         shortest_path ->
  exists path_map',
    mark_path path_map shortest_path ai player = Ok path_map' /\
    forall c', 0 <= c'.1 -> 0 <= c'.2 ->
      tile_at path_map' c' =
      if decide (c' ∈ shortest_path /\ c' <> ai /\ c' <> player)
      then Some Star else tile_at path_map c'.
Proof.
  revert path_map. induction shortest_path as [|c rest IH]; intros path_map Hall.
  - exists path_map. split; [done|]. intros c' _ _.
    rewrite decide_False; [done|]. intros [Hin _]. by apply elem_of_nil in Hin.
  - inversion Hall as [|? ? Hc Hrest]; subst. simpl.
    destruct (decide (c = ai \/ c = player)) as [Hend|Hmid].
    + replace (negb (bool_decide (c = ai)) && negb (bool_decide (c = player)))
        with false.
      2:{ repeat case_bool_decide; simpl; try done. destruct Hend; congruence. }
      destruct (IH path_map Hrest) as (pm' & Hm & Ht). exists pm'.
      split; [done|]. intros c' H1 H2. rewrite (Ht c' H1 H2).
      destruct (decide (c' ∈ rest /\ c' <> ai /\ c' <> player)) as [Hy|Hn].
      * rewrite decide_True; [done|]. destruct Hy as (? & ? & ?).
        split_and!; [by right|done|done].
      * rewrite decide_False; [done|]. intros (Hin & Ha & Hp). apply Hn.
        apply elem_of_cons in Hin as [->|Hin]; [by destruct Hend|done].
    + replace (negb (bool_decide (c = ai)) && negb (bool_decide (c = player)))
        with true.
      2:{ repeat case_bool_decide; simpl; try done; tauto. }
      destruct Hc as [->|[->|(H1 & H2 & Hs)]]; [tauto|tauto|].
      destruct (mark_cell_spec path_map c H1 H2 Hs) as (pm1 & -> & Ht1). simpl.
      destruct (IH pm1) as (pm' & Hm & Ht).
      { eapply Forall_impl; [exact Hrest|]. intros x [->|[->|(Hx1 & Hx2 & Hx)]];
          [by left|by right; left|right; right].
        split_and!; [done|done|]. rewrite Ht1 by done. by destruct (decide _). }
      exists pm'. split; [done|]. intros c' H1' H2'.
      rewrite (Ht c' H1' H2'), (Ht1 c' H1' H2').
      destruct (decide (c' ∈ rest /\ c' <> ai /\ c' <> player)) as [Hy|Hn].
      * rewrite decide_True; [done|]. destruct Hy as (? & ? & ?).
        split_and!; [by right|done|done].
      * destruct (decide (c' = c)) as [->|Hne].
        -- rewrite decide_True; [done|]. split_and!; [by left|tauto|tauto].
        -- rewrite decide_False; [done|]. intros (Hin & Ha & Hp). apply Hn.
           apply elem_of_cons in Hin as [->|Hin]; done.
Qed.

(** X17.  The drawing loop of the script, on any map and any list of cells
    that, the two positions apart, are cells of the map with indices from 0:
    it raises nothing, shows ['*'] at exactly the listed cells other than
    the two positions, and the map's own value everywhere else. *)
Theorem mark_path_draws (game_map : list (list Z)) (shortest_path : list cell)
    (ai player : cell) :
  Forall (fun c => c = ai \/ c = player \/
            (0 <= c.1 /\ 0 <= c.2 /\ is_Some (cell_value game_map c)))
         shortest_path ->
  exists path_map,
    mark_path (copy_map game_map) shortest_path ai player = Ok path_map /\
    forall c, 0 <= c.1 -> 0 <= c.2 ->
      tile_at path_map c =
      if decide (c ∈ shortest_path /\ c <> ai /\ c <> player)
      then Some Star else Num <$> cell_value game_map c.
Proof.
  intros Hall.
  destruct (mark_path_spec shortest_path ai player (copy_map game_map))
    as (pm & Hm & Ht).
  { eapply Forall_impl; [exact Hall|]. intros c [->|[->|(H1 & H2 & Hs)]];
      [by left|by right; left|right; right].
    split_and!; [done|done|]. rewrite tile_at_copy. by apply fmap_is_Some. }
  exists pm. split; [done|]. intros c H1 H2. rewrite (Ht c H1 H2).
  by rewrite tile_at_copy.
Qed.

Lemma mark_path_draws_witness :
  exists path_map,
    mark_path (copy_map gap_grid) [(0, 0); (0, 1); (0, 2); (1, 2)]
              (0, 0) (1, 2) = Ok path_map /\
    forall c, 0 <= c.1 -> 0 <= c.2 ->
      tile_at path_map c =
      if decide (c ∈ [(0, 0); (0, 1); (0, 2); (1, 2)] /\
                 c <> (0, 0) /\ c <> (1, 2))
      then Some Star else Num <$> cell_value gap_grid c.
Proof.
  apply (mark_path_draws gap_grid [(0, 0); (0, 1); (0, 2); (1, 2)] (0, 0) (1, 2)).
  repeat (apply Forall_cons; split;
    [first [by left | by right; left
           | right; right; split_and!; [simpl; lia|simpl; lia|by eexists]]|]).
  constructor.
Defined.

(** X18.  The script composed with the search, on any map: when [dijkstra]
    returns a list, drawing it with the start and the goal as the two
    positions raises nothing, shows ['*'] at exactly the cells strictly
    inside the path, and leaves every obstacle showing its own value. *)
Theorem script_draws_path `{HQ : Heapq} (fuel : nat)
    (game_map : list (list Z)) (ai player : cell) (p : list cell) :
  dijkstra fuel game_map ai player = Returned (Some p) ->
  exists path_map,
    mark_path (copy_map game_map) p ai player = Ok path_map /\
    (forall c, 0 <= c.1 -> 0 <= c.2 ->
       tile_at path_map c =
       if decide (c ∈ p /\ c <> ai /\ c <> player)
       then Some Star else Num <$> cell_value game_map c) /\
    (forall c v, 0 <= c.1 -> 0 <= c.2 ->
       cell_value game_map c = Some v -> v <> 0 ->
       tile_at path_map c = Some (Num v)).
Proof.
  intros Hret. apply dijkstra_returned_walk in Hret as (Hh & _ & _ & Ht).
  destruct p as [|s p]; [done|]. simpl in Hh, Ht. injection Hh as ->.
  destruct (mark_path_spec (ai :: p) ai player (copy_map game_map))
    as (pm & Hm & Hpm).
  { constructor; [by left|]. eapply Forall_impl; [exact Ht|].
    intros c [[[H1 _] [H2 _]] Hv]. right; right. split_and!; [done|done|].
    rewrite tile_at_copy, Hv. by eexists. }
  exists pm. split_and!; [done| |].
  - intros c H1 H2. by rewrite (Hpm c H1 H2), tile_at_copy.
  - intros c v H1 H2 Hv Hv0. rewrite (Hpm c H1 H2), tile_at_copy, Hv.
    rewrite decide_False; [done|]. intros (Hin & Ha & _).
    apply elem_of_cons in Hin as [->|Hin]; [done|].
    rewrite Forall_forall in Ht. destruct (Ht _ Hin) as [_ Hz]. congruence.
Qed.

Lemma script_draws_path_witness :
  exists path_map,
    mark_path (copy_map gap_grid)
      [(0, 0); (0, 1); (0, 2); (1, 2); (2, 2); (2, 1); (2, 0)] (0, 0) (2, 0)
    = Ok path_map /\
    (forall c, 0 <= c.1 -> 0 <= c.2 ->
       tile_at path_map c =
       if decide (c ∈ [(0, 0); (0, 1); (0, 2); (1, 2); (2, 2); (2, 1); (2, 0)]
                  /\ c <> (0, 0) /\ c <> (2, 0))
       then Some Star else Num <$> cell_value gap_grid c) /\
    (forall c v, 0 <= c.1 -> 0 <= c.2 ->
       cell_value gap_grid c = Some v -> v <> 0 ->
       tile_at path_map c = Some (Num v)).
Proof.
  apply (script_draws_path (HQ := sorted_heapq) 20 gap_grid (0, 0) (2, 0)).
  vm_compute. reflexivity.
Defined.

(** The drawing of the script's own run. *)
Example script_map :
  mark_path (copy_map GAME_MAP)
    [(0, 0); (0, 1); (0, 2); (0, 3); (1, 3); (2, 3); (2, 4); (2, 5); (3, 5);
     (4, 5); (4, 6); (5, 6); (6, 6)] (0, 0) (6, 6)
  = Ok [[Num 0; Star; Star; Star; Num 1; Num 0; Num 0; Num 0];
        [Num 0; Num 1; Num 0; Star; Num 1; Num 0; Num 1; Num 0];
        [Num 0; Num 1; Num 0; Star; Star; Star; Num 0; Num 0];
        [Num 0; Num 0; Num 0; Num 1; Num 1; Star; Num 1; Num 0];
        [Num 0; Num 1; Num 0; Num 0; Num 0; Star; Star; Num 0];
        [Num 0; Num 0; Num 0; Num 1; Num 0; Num 1; Star; Num 0];
        [Num 0; Num 0; Num 0; Num 0; Num 0; Num 0; Num 0; Num 0]].
Proof. reflexivity. Qed.

(** * Optimal prefixes, and grids with more obstacles *)

(** A walk cut at one of its cells. *)
Lemma walk_split (graph : list (list Z)) (s e c : cell) (p1 p2 : list cell) :
  walk graph s e (p1 ++ c :: p2) ->
  walk graph s c (p1 ++ [c]) /\ walk graph c e (c :: p2).
Proof.
  intros Hw. remember (p1 ++ c :: p2) as l eqn:Hl. revert p2 Hl.
  induction Hw as [|w v q Hq IH Hadj Htr]; intros p2 Hl.
  - destruct p1 as [|x p1]; simpl in Hl.
    + injection Hl as <- <-. split; constructor.
    + by destruct p1.
  - destruct p2 as [|x p2 _] using rev_ind.
    + apply app_inj_tail in Hl as [-> ->]. split; [|constructor].
      by eapply walk_move.
    + change (p1 ++ c :: p2 ++ [x]) with (p1 ++ (c :: p2) ++ [x]) in Hl.
      rewrite app_assoc in Hl. apply app_inj_tail in Hl as [-> ->].
      destruct (IH p2 eq_refl) as [H1 H2]. split; [done|].
      change (c :: p2 ++ [x]) with ((c :: p2) ++ [x]). by eapply walk_move.
Qed.

(** X19.  On a non-empty rectangular grid every cell of a returned path is
    reached along the path by a shortest route: no walk from [start] to the
    cell has fewer hops than the path has up to it. *)
Theorem dijkstra_prefix_shortest `{HQ : Heapq} (fuel : nat)
    (graph : list (list Z)) (start end_ c : cell) (p1 p2 q : list cell) :
  well_formed graph ->
  dijkstra fuel graph start end_ = Returned (Some (p1 ++ c :: p2)) ->
  is_walk graph start c q ->
  Z.of_nat (length p1) <= hops q.
Proof.
  intros Hwf Hret Hq. apply is_walk_walk in Hq.
  pose proof (dijkstra_sound fuel graph start end_ Hwf) as Hs.
  rewrite Hret in Hs. destruct Hs as [Hp Hmin].
  destruct (walk_split _ _ _ _ _ _ Hp) as [_ Hsuf].
  destruct (walk_app _ _ _ _ _ _ Hq Hsuf) as [Hw Hh].
  apply Hmin in Hw. rewrite Hh in Hw. unfold hops in *.
  rewrite length_app in Hw. simpl in *. lia.
Qed.

Lemma dijkstra_prefix_shortest_witness :
  Z.of_nat (length [(0, 0); (0, 1); (0, 2)])
  <= hops [(0, 0); (0, 1); (0, 2); (1, 2)].
Proof.
  apply (dijkstra_prefix_shortest (HQ := sorted_heapq) 20 gap_grid
           (0, 0) (2, 0) (1, 2) [(0, 0); (0, 1); (0, 2)]
           [(2, 2); (2, 1); (2, 0)]).
  - exact gap_grid_well_formed.
  - vm_compute. reflexivity.
  - split_and!; [reflexivity|reflexivity| |].
    + repeat (split; [by apply adjacent_spec; simpl; lia|]). done.
    + simpl. repeat (constructor; [concrete_traversable|]). constructor.
Defined.

(** [graph'] has the shape of [graph] and an obstacle wherever [graph] has
    one. *)
Definition more_obstacles (graph graph' : list (list Z)) : Prop :=
  Forall2 (Forall2 (fun x y => y = 0 -> x = 0)) graph graph'.

Lemma more_obstacles_traversable (graph graph' : list (list Z)) (c : cell) :
  more_obstacles graph graph' -> traversable graph' c -> traversable graph c.
Proof.
  intros Hmore [[Hr Hc] Hv]. unfold more_obstacles in Hmore.
  pose proof (Forall2_length _ _ _ Hmore) as Hlen.
  rewrite Forall2_lookup in Hmore.
  assert (Hcols : cols_of graph = cols_of graph').
  { unfold cols_of. rewrite !head_lookup. specialize (Hmore 0%nat).
    destruct Hmore as [r r' Hrr|]; simpl; [|done].
    by rewrite (Forall2_length _ _ _ Hrr). }
  split.
  - split; [unfold rows_of in *; lia|lia].
  - unfold cell_value in *. specialize (Hmore (Z.to_nat c.1)).
    destruct Hmore as [r r' Hrr|]; [|done].
    rewrite Forall2_lookup in Hrr. specialize (Hrr (Z.to_nat c.2)).
    rewrite Hv in Hrr. inversion Hrr as [x y Hxy|]; subst. by rewrite Hxy.
Qed.

(** X20.  Removing obstacles never loses a path: when [graph'] has the
    shape of the non-empty rectangular [graph] and an obstacle wherever
    [graph] has one, and the call returns a path on [graph'], then on
    [graph] it returns a path too, with no more hops. *)
Theorem dijkstra_fewer_obstacles `{HQ : Heapq} (fuel fuel' : nat)
    (graph graph' : list (list Z)) (start end_ : cell)
    (p' : list cell) (r : option (list cell)) :
  well_formed graph -> more_obstacles graph graph' ->
  dijkstra fuel' graph' start end_ = Returned (Some p') ->
  dijkstra fuel graph start end_ = Returned r ->
  exists p, r = Some p /\ hops p <= hops p'.
Proof.
  intros Hwf Hmore Hp' Hr.
  apply dijkstra_returned_walk in Hp' as (Hh & Hl & Hlk & Ht).
  assert (Hw : walk graph start end_ p').
  { apply is_walk_walk. split_and!; [done|done|done|].
    eapply Forall_impl; [exact Ht|]. intros c.
    by apply more_obstacles_traversable. }
  pose proof (dijkstra_sound fuel graph start end_ Hwf) as Hs.
  rewrite Hr in Hs. destruct r as [p|]; [|by apply Hs in Hw].
  exists p. split; [done|]. by apply Hs.
Qed.

Lemma dijkstra_fewer_obstacles_witness :
  exists p,
    Some [(0, 0); (0, 1); (0, 2); (1, 2); (2, 2)] = Some p /\
    hops p <= hops [(0, 0); (0, 1); (0, 2); (1, 2); (2, 2)].
Proof.
  apply (dijkstra_fewer_obstacles (HQ := sorted_heapq) 20 20 open3_grid
           gap_grid (0, 0) (2, 2)).
  - split; [done|]. repeat constructor.
  - repeat constructor; done.
  - vm_compute. reflexivity.
  - vm_compute. reflexivity.
Defined.
